(** * Atom: a shallow embedding of [src/atom.py]

    The Python class [Atom] is embedded as a record with one Rocq function per
    method.  Python floats are IEEE-754 binary64 numbers: they are modelled by
    Rocq's primitive floats, whose operations are specified against
    [SpecFloat] by the axioms of [FloatAxioms].  Exceptions are values of an
    error type, a frozenset is a [gset], and a method that may assign to
    [self] returns the receiver it leaves behind. *)

From Stdlib Require Import ZArith Floats Ascii String.
From stdpp Require Import base list strings gmap sorting.

Set Warnings "-inexact-float,-clear-no-such-hyp".
Local Open Scope Z_scope.

(** ** The part of the Python runtime the class relies on *)

(** The exceptions that the modelled code can meet. *)
Inductive exn : Set :=
  | ValueError | TypeError | OverflowError | IndexError | UnboundLocalError.

Inductive result (A : Type) : Type :=
  | Ok (a : A)
  | Raise (e : exn).
Arguments Ok {A} a.
Arguments Raise {A} e.

#[global] Instance result_ret : MRet result := fun A a => Ok a.
#[global] Instance result_bind : MBind result := fun A B k m =>
  match m with
  | Ok a => k a
  | Raise e => Raise e
  end.

(** A [for] loop whose body may raise: the state is threaded through the
    items in order and the first exception ends the loop. *)
Fixpoint for_each {S A : Type} (body : S → A → result S) (items : list A) (s : S)
  : result S :=
  match items with
  | [] => Ok s
  | a :: rest => s' ← body s a; for_each body rest s'
  end.

(** Python float arithmetic.  [+], [-], unary [-] and [np.sqrt] are the
    correctly rounded binary64 operations and never raise; [<], [==] are the
    IEEE comparisons. *)
Definition float_inf : float := infinity.

(** [v ** 2] on a Python float: CPython's [float_pow] returns the C [pow] of
    the operands and raises [OverflowError] when a finite base gives an
    infinite result.  The square itself is taken to be the correctly rounded
    product [v * v]. *)
Definition py_sq (v : float) : result float :=
  let r := (v * v)%float in
  if is_finite v && is_infinity r then Raise OverflowError else Ok r.

(** The arguments a caller may hand to the constructor. *)
Inductive pyobj : Type :=
  | PyFloat (f : float)
  | PyInt (n : Z)
  | PyStr (s : string)
  | PyNone.

(** [float(n)] for a Python int: the nearest binary64 (ties to even), or
    [OverflowError] when that is out of range. *)
Definition int_to_float (n : Z) : result float :=
  match binary_normalize prec emax n 0 false with
  | S754_infinity _ => Raise OverflowError
  | sf => Ok (SF2Prim sf)
  end.

(** [str.lower()] on ASCII text. *)
Definition ascii_lower (c : ascii) : ascii :=
  let n := nat_of_ascii c in
  if (Nat.leb 65 n && Nat.leb n 90)%bool then ascii_of_nat (n + 32) else c.

Fixpoint lower (s : string) : string :=
  match s with
  | EmptyString => EmptyString
  | String c rest => String (ascii_lower c) (lower rest)
  end.

(** ** The class *)

(** One entry of a connectivity: [((element, bond order), amount)]. *)
Definition link : Type := string * Z.
Definition bond : Type := link * nat.

Record Atom : Type := mkAtom {
  elem : string;
  x : float;
  y : float;
  z : float;
  q : float;
  num : Z;
  connectivity : option (gset bond);
  kind : option (string * gset bond)
}.

Definition set_elem (v : string) (a : Atom) : Atom :=
  mkAtom v (x a) (y a) (z a) (q a) (num a) (connectivity a) (kind a).
Definition set_x (v : float) (a : Atom) : Atom :=
  mkAtom (elem a) v (y a) (z a) (q a) (num a) (connectivity a) (kind a).
Definition set_y (v : float) (a : Atom) : Atom :=
  mkAtom (elem a) (x a) v (z a) (q a) (num a) (connectivity a) (kind a).
Definition set_z (v : float) (a : Atom) : Atom :=
  mkAtom (elem a) (x a) (y a) v (q a) (num a) (connectivity a) (kind a).
Definition set_q (v : float) (a : Atom) : Atom :=
  mkAtom (elem a) (x a) (y a) (z a) v (num a) (connectivity a) (kind a).
Definition set_conn (v : gset bond) (a : Atom) : Atom :=
  mkAtom (elem a) (x a) (y a) (z a) (q a) (num a) (Some v) (kind a).
Definition set_kind (v : string * gset bond) (a : Atom) : Atom :=
  mkAtom (elem a) (x a) (y a) (z a) (q a) (num a) (connectivity a) (Some v).

(** What a method call leaves behind: the receiver after the call, the lines
    it printed, and what it returned or raised. *)
Record call (A : Type) : Type := Call {
  receiver : Atom;
  printed : list string;
  returned : result A
}.
Arguments Call {A} receiver printed returned.
Arguments receiver {A} c.
Arguments printed {A} c.
Arguments returned {A} c.

(** Lattice vectors and points: three floats. *)
Definition vec : Type := float * float * float.

Section AtomMethods.

(** Python's parser of float literals ([float] applied to a [str]); [None]
    stands for the [ValueError] it raises on any other text. *)
Variable str_to_float : string → option float.

(** The builtin [float(o)]. *)
Definition py_float (o : pyobj) : result float :=
  match o with
  | PyFloat f => Ok f
  | PyInt n => int_to_float n
  | PyStr s =>
      match str_to_float s with
      | Some f => Ok f
      | None => Raise ValueError
      end
  | PyNone => Raise TypeError
  end.

(** One assignment [self.field = float(v)] of the [try] block, followed by
    the rest of the block: an exception leaves the earlier assignments in
    place. *)
Definition assign_float (set : float → Atom → Atom) (v : pyobj)
    (rest : Atom → Atom * option exn) (self : Atom) : Atom * option exn :=
  match py_float v with
  | Ok f => rest (set f self)
  | Raise e => (self, Some e)
  end.

Definition diagnostic : string :=
  "Some coordinates or charges cannot be cast to float!".

(** [Atom(elemIn, xIn, yIn, zIn, qIn, num)]: the lines printed, and the new
    atom or the exception that escapes [__init__]. *)
Definition __init__ (elemIn : string) (xIn yIn zIn qIn num_arg : pyobj)
  : list string * result Atom :=
  let self := mkAtom elemIn 0%float 0%float 0%float 0%float 1 None None in
  let '(self, raised) :=
    assign_float set_x xIn
      (assign_float set_y yIn
        (assign_float set_z zIn
          (assign_float set_q qIn (fun s => (s, None))))) self in
  match raised with
  | None => ([], Ok self)
  | Some ValueError => ([diagnostic], Ok self)
  | Some e => ([], Raise e)
  end.

(** [__eq__]. *)
Definition __eq__ (self other : Atom) : bool :=
  String.eqb (lower (elem self)) (lower (elem other))
  && PrimFloat.eqb (x self) (x other)
  && PrimFloat.eqb (y self) (y other)
  && PrimFloat.eqb (z self) (z other)
  && PrimFloat.eqb (q self) (q other).

(** [dist]. *)
Definition dist (self : Atom) (x1 y1 z1 : float) : result float :=
  dx ← py_sq (x self - x1)%float;
  dy ← py_sq (y self - y1)%float;
  dz ← py_sq (z self - z1)%float;
  Ok (PrimFloat.sqrt (dx + dy + dz)%float).

(** [dist_lat].  The null vector of the source holds the int [0]; added to
    a float it is the float [0.0]. *)
Definition nVec : vec := (0, 0, 0)%float.

Definition neg_vec (v : vec) : vec :=
  let '(v0, v1, v2) := v in (- v0, - v1, - v2)%float.

(** The body of the innermost loop.  The state is [rMin] and the image
    [x3, y3, z3], which is unbound until the first assignment. *)
Definition lat_body (self : Atom) (x1 y1 z1 : float) (trans1 trans2 : vec)
    (st : float * option vec) (trans3 : vec) : result (float * option vec) :=
  let '(a0, a1, a2) := trans1 in
  let '(b0, b1, b2) := trans2 in
  let '(c0, c1, c2) := trans3 in
  let x2 := (x1 + a0 + b0 + c0)%float in
  let y2 := (y1 + a1 + b1 + c1)%float in
  let z2 := (z1 + a2 + b2 + c2)%float in
  r ← dist self x2 y2 z2;
  Ok (if (r <? st.1)%float then (r, Some (x2, y2, z2)) else st).

Definition dist_lat (self : Atom) (x1 y1 z1 : float) (aVec bVec cVec : vec)
  : result (float * float * float * float) :=
  let aSet := [aVec; nVec; neg_vec aVec] in
  let bSet := [bVec; nVec; neg_vec bVec] in
  let cSet := [cVec; nVec; neg_vec cVec] in
  st ← for_each (fun st trans1 =>
          for_each (fun st trans2 =>
            for_each (lat_body self x1 y1 z1 trans1 trans2) cSet st)
          bSet st)
        aSet (float_inf, None);
  match st.2 with
  | Some (x3, y3, z3) => Ok (st.1, x3, y3, z3)
  | None => Raise UnboundLocalError
  end.

(** [translated]: the receiver is only read; the copy comes from the
    constructor, called with its default [num]. *)
Definition translated (self : Atom) (x1 y1 z1 : float) : call Atom :=
  let xout := (x self + x1)%float in
  let yout := (y self + y1)%float in
  let zout := (z self + z1)%float in
  let '(out, outAtom) :=
    __init__ (elem self) (PyFloat xout) (PyFloat yout) (PyFloat zout)
      (PyFloat (q self)) (PyInt 1) in
  Call self out outAtom.

(** [translate]. *)
Definition translate (self : Atom) (x1 y1 z1 : float) : call unit :=
  let self := set_x (x self + x1)%float self in
  let self := set_y (y self + y1)%float self in
  let self := set_z (z self + z1)%float self in
  Call self [] (Ok tt).

(** [electrons]: returns [(valence, total)]. *)
Definition electrons (self : Atom) : call (Z * Z) :=
  let element := lower (elem self) in
  let '(total, valence) :=
    if String.eqb element "h" then (1, 1)
    else if String.eqb element "c" then (6, 4)
    else if String.eqb element "n" then (7, 5)
    else if String.eqb element "o" then (8, 6)
    else (0, 0) in
  Call self [] (Ok (valence, total)).

Definition periodic : list (string * Z) :=
  [("H", 1); ("C", 6); ("N", 7); ("O", 8)]%string.

(** [num_to_elem]. *)
Definition num_to_elem (self : Atom) (num_arg : Z) : call unit :=
  let self :=
    fold_left (fun self element =>
                 if num_arg =? element.2 then set_elem element.1 self else self)
              periodic self in
  Call self [] (Ok tt).

(** [collections.Counter] over a list: a table in insertion order, a key
    keeping the place of its first occurrence. *)
Fixpoint counter_incr (k : link) (c : list bond) : list bond :=
  match c with
  | [] => [(k, 1%nat)]
  | (k', n) :: rest =>
      if decide (k = k') then (k', S n) :: rest
      else (k', n) :: counter_incr k rest
  end.

Definition Counter (l : list link) : list bond :=
  fold_left (fun c k => counter_incr k c) l [].

(** [Counter.most_common()]: [sorted(items, key=count, reverse=True)], a
    stable sort, so entries of equal count keep their table order. *)
Fixpoint insert_by_count (e : bond) (l : list bond) : list bond :=
  match l with
  | [] => [e]
  | e' :: rest =>
      if (e.2 <? e'.2)%nat then e' :: insert_by_count e rest else e :: l
  end.

Definition most_common (c : list bond) : list bond :=
  foldr insert_by_count [] c.

(** The loop of [set_connectivity] over [enumerate(in_atoms)]. *)
Definition link_step (in_atoms : list Atom) (in_row : list Z)
    (links : list link) (item : nat * Atom) : result (list link) :=
  let '(i, _) := item in
  match in_row !! i with
  | None => Raise IndexError
  | Some b =>
      if b =? 0 then Ok links
      else match in_atoms !! i with
           | Some a => Ok (links ++ [(elem a, b)])
           | None => Raise IndexError
           end
  end.

Definition collect_links (in_atoms : list Atom) (in_row : list Z)
  : result (list link) :=
  for_each (link_step in_atoms in_row) (imap pair in_atoms) [].

(** [set_connectivity]. *)
Definition set_connectivity (self : Atom) (in_atoms : list Atom)
    (in_row : list Z) : call unit :=
  match collect_links in_atoms in_row with
  | Raise e => Call self [] (Raise e)
  | Ok links =>
      let conn : gset bond := list_to_set (most_common (Counter links)) in
      let self := set_conn conn self in
      let self := set_kind (elem self, conn) self in
      Call self [] (Ok tt)
  end.

End AtomMethods.

(** ** Notions used to state the properties *)

(** The float literals met in the examples below, as Python reads them. *)
Definition example_literals (s : string) : option float :=
  if String.eqb s "1.5" then Some 1.5%float
  else if String.eqb s "-2" then Some (-2)%float
  else None.

(** Atoms at the origin, as [Atom("H")], [Atom("C")] and [Atom("O")] build
    them. *)
Definition origin (e : string) : Atom :=
  mkAtom e 0%float 0%float 0%float 0%float 1 None None.

Definition unit_a : vec := (1, 0, 0)%float.
Definition unit_b : vec := (0, 1, 0)%float.
Definition unit_c : vec := (0, 0, 1)%float.

(** The two zeros of binary64. *)
Definition signed_zero (u : float) : Prop := u = 0%float ∨ u = (-0)%float.

(** IEEE equality spelled out: the same value other than NaN, or two zeros
    of any signs. *)
Definition ieee_eq (u v : float) : Prop :=
  (u = v ∧ u ≠ nan) ∨ (signed_zero u ∧ signed_zero v).

(** Values that are identical or are both zeros: all that adding or
    subtracting a zero can change. *)
Definition same_value (u v : float) : Prop :=
  u = v ∨ (signed_zero u ∧ signed_zero v).

(** The exception raised by the first coercion that fails, if any. *)
Fixpoint first_raised (rs : list (result float)) : option exn :=
  match rs with
  | [] => None
  | Ok _ :: rest => first_raised rest
  | Raise e :: _ => Some e
  end.

(** The atoms a client can obtain through the constructor and the methods
    that assign to fields or build atoms. *)
Inductive reachable (parse : string → option float) : Atom → Prop :=
  | reach_init elemIn xIn yIn zIn qIn n a :
      (__init__ parse elemIn xIn yIn zIn qIn n).2 = Ok a → reachable parse a
  | reach_translate a dx dy dz :
      reachable parse a → reachable parse (receiver (translate a dx dy dz))
  | reach_translated_receiver a dx dy dz :
      reachable parse a → reachable parse (receiver (translated parse a dx dy dz))
  | reach_translated a dx dy dz b :
      reachable parse a → returned (translated parse a dx dy dz) = Ok b →
      reachable parse b
  | reach_set_connectivity a in_atoms in_row :
      reachable parse a →
      reachable parse (receiver (set_connectivity a in_atoms in_row))
  | reach_num_to_elem a n :
      reachable parse a → reachable parse (receiver (num_to_elem a n))
  | reach_electrons a :
      reachable parse a → reachable parse (receiver (electrons a)).

(** The 27 periodic images of a target point, in the order of the nested
    loops: translations along a outermost, then b, then c, each taken from
    the vector, the null vector and the negated vector. *)
Definition translations (v : vec) : list vec := [v; nVec; neg_vec v].

Definition shift (x1 y1 z1 : float) (t1 t2 t3 : vec) : vec :=
  let '(a0, a1, a2) := t1 in
  let '(b0, b1, b2) := t2 in
  let '(c0, c1, c2) := t3 in
  (x1 + a0 + b0 + c0, y1 + a1 + b1 + c1, z1 + a2 + b2 + c2)%float.

Definition images (x1 y1 z1 : float) (aVec bVec cVec : vec) : list vec :=
  t1 ← translations aVec;
  t2 ← translations bVec;
  t3 ← translations cVec;
  [shift x1 y1 z1 t1 t2 t3].

(** The distance of the atom to a point, as [dist] computes it. *)
Definition dist_to (self : Atom) (p : vec) : result float :=
  dist self p.1.1 p.1.2 p.2.

(** One turn of the loop seen on a point, and on a distance already
    computed. *)
Definition scan (self : Atom) (st : float * option vec) (p : vec)
  : result (float * option vec) :=
  r ← dist_to self p;
  Ok (if (r <? st.1)%float then (r, Some p) else st).

Definition pick (st : float * option vec) (rp : float * vec)
  : float * option vec :=
  if (rp.1 <? st.1)%float then (rp.1, Some rp.2) else st.

(** [rs !! k] is [m], no distance of [rs] is strictly below [m], and no
    earlier distance equals [m]: [k] is the first place of the minimum. *)
Definition first_min (rs : list float) (k : nat) (m : float) : Prop :=
  rs !! k = Some m
  ∧ (∀ r, r ∈ rs → (r <? m)%float = false)
  ∧ (∀ j r, (j < k)%nat → rs !! j = Some r → (r =? m)%float = false).

(** What the loop has established after the pairs [pre] of a distance and
    its point. *)
Definition scanned (pre : list (float * vec)) (st : float * option vec) : Prop :=
  (∀ rp, rp ∈ pre → (rp.1 <? st.1)%float = false)
  ∧ match st.2 with
    | None => st.1 = float_inf
    | Some p =>
        (st.1 <? float_inf)%float = true
        ∧ ∃ k, pre !! k = Some (st.1, p)
               ∧ ∀ j rp, (j < k)%nat → pre !! j = Some rp →
                         (rp.1 =? st.1)%float = false
    end.

(** A vector whose components are zeros. *)
Definition zero_vec (v : vec) : Prop :=
  signed_zero v.1.1 ∧ signed_zero v.1.2 ∧ signed_zero v.2.

(** The bonds of an atom, in the words of the specification: the pairs of
    a peer's element and its row entry, over the peers whose entry is not
    zero. *)
Definition bonded (in_atoms : list Atom) (in_row : list Z) : list link :=
  filter (λ l, l.2 ≠ 0) (zip (elem <$> in_atoms) in_row).

(** The number of occurrences of a bond in a list of bonds. *)
Definition multiplicity (k : link) (l : list link) : nat :=
  length (filter (λ k', k' = k) l).

(** The place at which a bond is first met in a list of bonds. *)
Fixpoint first_pos (k : link) (l : list link) : nat :=
  match l with
  | [] => 0
  | k' :: rest => if decide (k = k') then 0 else S (first_pos k rest)
  end.

(** A list reordered by a list of indices. *)
Definition permute {A : Type} (σ : list nat) (l : list A) : list A :=
  omap (λ i, l !! i) σ.

(** [c] is the table of the counts of [l]. *)
Definition counts_of (c : list bond) (l : list link) : Prop :=
  NoDup (c.*1) ∧ ∀ k n, (k, n) ∈ c ↔ k ∈ l ∧ n = multiplicity k l.

(** In the table [c], the entry [e1] stands before [e2]. *)
Definition precedes (c : list bond) (e1 e2 : bond) : Prop :=
  ∃ i j, (i < j)%nat ∧ c !! i = Some e1 ∧ c !! j = Some e2.

(** The order of [most_common]: a larger count first, and among equal
    counts the order of the table. *)
Definition ranked (c : list bond) (e1 e2 : bond) : Prop :=
  (e2.2 < e1.2)%nat ∨ (e1.2 = e2.2 ∧ precedes c e1 e2).

(** The class of a binary64 value: finite (zeros included), infinite or NaN. *)
Definition SF_finite (X : spec_float) : bool :=
  match X with
  | S754_zero _ | S754_finite _ _ _ => true
  | _ => false
  end.

(** Swapping the operands of a subtraction negates the result, or leaves a
    zero a zero. *)
Definition negated (X Y : spec_float) : Prop :=
  Y = SFopp X ∨ ∃ s t, X = S754_zero s ∧ Y = S754_zero t.

(** The sum of the amounts of a connectivity. *)
Definition total_amount (conn : gset bond) : nat :=
  sum_list_with snd (elements conn).

(** ** Facts about binary64 comparison and zeros *)

Section FloatFacts.

Lemma SFcompare_finite_refl s m e : SFcompare (S754_finite s m e) (S754_finite s m e) = Some Eq.
Proof.
  simpl. rewrite Z.compare_refl. fold (Pos.compare m m). rewrite Pos.compare_refl.
  by destruct s.
Qed.

Lemma SFcompare_Eq_inv a b :
  SFcompare a b = Some Eq →
  a = b ∨ (∃ s t, a = S754_zero s ∧ b = S754_zero t).
Proof.
  destruct a as [s|s| |s m e], b as [t|t| |t n f]; simpl; try discriminate;
    try (destruct s; discriminate); try (destruct t; discriminate).
  - right. eauto.
  - destruct s, t; try discriminate; by left.
  - fold (Pos.compare m n).
    destruct s, t; try discriminate;
      destruct (Z.compare_spec e f) as [->| |]; try discriminate;
      destruct (Pos.compare_spec m n) as [->| |]; try discriminate; intros _; by left.
Qed.

Lemma SFltb_trans a b c : SFltb a b = true → SFltb b c = true → SFltb a c = true.
Proof.
  unfold SFltb.
  destruct a as [s|s| |s m e], b as [t|t| |t n f], c as [u|u| |u o g]; simpl;
    try discriminate; try (by destruct s); try (by destruct t); try (by destruct u);
    try (by destruct s, t); try (by destruct t, u); try (by destruct s, u);
    try (by destruct s, t, u).
  fold (Pos.compare m n) (Pos.compare n o) (Pos.compare m o).
  destruct s, t, u; try discriminate; try reflexivity;
    destruct (Z.compare_spec e f); try discriminate;
    destruct (Z.compare_spec f g); try discriminate;
    destruct (Z.compare_spec e g); try lia; try reflexivity;
    destruct (Pos.compare_spec m n); try discriminate;
    destruct (Pos.compare_spec n o); try discriminate;
    destruct (Pos.compare_spec m o); simpl; try lia; try reflexivity.
Qed.

Lemma SFltb_irrefl a : SFltb a a = false.
Proof.
  unfold SFltb. destruct a as [s|s| |s m e]; simpl; try reflexivity.
  - by destruct s.
  - rewrite Z.compare_refl. fold (Pos.compare m m). rewrite Pos.compare_refl. by destruct s.
Qed.


Lemma ltb_trans (a b c : float) :
  (a <? b)%float = true → (b <? c)%float = true → (a <? c)%float = true.
Proof. rewrite !ltb_spec. apply SFltb_trans. Qed.

Lemma ltb_irrefl (a : float) : (a <? a)%float = false.
Proof. rewrite ltb_spec. apply SFltb_irrefl. Qed.

Lemma SFeqb_compare a b : SFeqb a b = true → SFcompare a b = Some Eq.
Proof. unfold SFeqb. by destruct (SFcompare a b) as [[]|]. Qed.

Lemma eqb_ltb_trans (a b c : float) :
  (a =? b)%float = true → (b <? c)%float = true → (a <? c)%float = true.
Proof.
  rewrite FloatAxioms.eqb_spec, !ltb_spec. intros Hab%SFeqb_compare.
  destruct (SFcompare_Eq_inv _ _ Hab) as [->|(s & t & -> & ->)]; [done|].
  by destruct (Prim2SF c).
Qed.

Lemma Prim2SF_zero_inv u s : Prim2SF u = S754_zero s → signed_zero u.
Proof.
  intros E. rewrite <- (SF2Prim_Prim2SF u), E.
  destruct s; [right | left]; reflexivity.
Qed.

Lemma signed_zero_SF u : signed_zero u → ∃ s, Prim2SF u = S754_zero s.
Proof. intros [-> | ->]; [by exists false | by exists true]. Qed.

Lemma Prim2SF_nan_inv u : Prim2SF u = S754_nan → u = nan.
Proof. intros E. by rewrite <- (SF2Prim_Prim2SF u), E. Qed.

Lemma eqb_ieee_eq (u v : float) : (u =? v)%float = true ↔ ieee_eq u v.
Proof.
  rewrite FloatAxioms.eqb_spec. split.
  - intros H%SFeqb_compare.
    destruct (SFcompare_Eq_inv _ _ H) as [E|(s & t & Eu & Ev)].
    + left. split; [by apply Prim2SF_inj|].
      intros ->. discriminate H.
    + right. eauto using Prim2SF_zero_inv.
  - intros [[-> Hn] | [[s Hu]%signed_zero_SF [t Hv]%signed_zero_SF]].
    + unfold SFeqb. destruct (Prim2SF v) as [s|s| |s m e] eqn:E.
      * done.
      * by destruct s.
      * by apply Prim2SF_nan_inv in E.
      * by rewrite SFcompare_finite_refl.
    + by rewrite Hu, Hv.
Qed.

Lemma zero_ne_neg_zero : 0%float ≠ (-0)%float.
Proof.
  intros E. pose proof (f_equal (fun v => (1 / v <? 0)%float) E) as F.
  vm_compute in F. discriminate F.
Qed.

Lemma same_value_refl u : same_value u u.
Proof. by left. Qed.

Lemma same_value_sym u v : same_value u v → same_value v u.
Proof. intros [->|[]]; [by left | by right]. Qed.

Lemma same_value_trans u v w : same_value u v → same_value v w → same_value u w.
Proof.
  intros [->|[Hu Hv]] [->|[Hv' Hw]]; try (by left); try (by right).
Qed.

Lemma add_zero_same (u o : float) : signed_zero o → same_value (u + o)%float u.
Proof.
  intros [s Ho]%signed_zero_SF.
  pose proof (add_spec u o) as E. rewrite Ho in E.
  destruct (Prim2SF u) as [su|su| |su m e] eqn:Eu; unfold SF64add in E; simpl in E.
  - right. split; [|by eapply Prim2SF_zero_inv].
    destruct su, s; by eapply Prim2SF_zero_inv.
  - left. apply Prim2SF_inj. by rewrite E, Eu.
  - left. apply Prim2SF_inj. by rewrite E, Eu.
  - left. apply Prim2SF_inj. by rewrite E, Eu.
Qed.

Lemma sub_zero_same (u o : float) : signed_zero o → same_value (u - o)%float u.
Proof.
  intros [s Ho]%signed_zero_SF.
  pose proof (sub_spec u o) as E. rewrite Ho in E.
  destruct (Prim2SF u) as [su|su| |su m e] eqn:Eu; unfold SF64sub in E; simpl in E.
  - right. split; [|by eapply Prim2SF_zero_inv].
    destruct su, s; by eapply Prim2SF_zero_inv.
  - left. apply Prim2SF_inj. by rewrite E, Eu.
  - left. apply Prim2SF_inj. by rewrite E, Eu.
  - left. apply Prim2SF_inj. by rewrite E, Eu.
Qed.

Lemma sub_same (u v w : float) : same_value v w → same_value (u - v)%float (u - w)%float.
Proof.
  intros [->|[Hv Hw]]; [by left|].
  eapply same_value_trans; [by apply sub_zero_same|].
  apply same_value_sym. by apply sub_zero_same.
Qed.

Lemma ltb_eqb_refl (u c : float) : (u <? c)%float = true → (u =? u)%float = true.
Proof.
  rewrite ltb_spec, FloatAxioms.eqb_spec. unfold SFltb, SFeqb.
  destruct (Prim2SF u) as [s|s| |s m e]; try done.
  - by destruct s.
  - by rewrite SFcompare_finite_refl.
Qed.

Lemma same_value_eqb (u v : float) : same_value u v → v ≠ nan → (u =? v)%float = true.
Proof.
  intros [->|[Hu Hv]] Hn; apply eqb_ieee_eq; [by left | by right].
Qed.

Lemma neg_signed_zero (u : float) : signed_zero u → signed_zero (- u)%float.
Proof. intros [->| ->]; [by right | by left]. Qed.

Lemma py_sq_same (u v : float) : same_value u v → py_sq u = py_sq v.
Proof.
  intros [->|[[->| ->] [->| ->]]]; reflexivity.
Qed.

Lemma sub_nan_r (u : float) : (u - nan)%float = nan.
Proof.
  apply Prim2SF_inj. rewrite sub_spec.
  change (Prim2SF nan) with S754_nan. unfold SF64sub. by destruct (Prim2SF u).
Qed.

Lemma add_nan_r (u : float) : (u + nan)%float = nan.
Proof.
  apply Prim2SF_inj. rewrite add_spec.
  change (Prim2SF nan) with S754_nan. unfold SF64add. by destruct (Prim2SF u).
Qed.

Lemma add_nan_l (u : float) : (nan + u)%float = nan.
Proof.
  apply Prim2SF_inj. rewrite add_spec.
  change (Prim2SF nan) with S754_nan. unfold SF64add. by destruct (Prim2SF u).
Qed.

End FloatFacts.

(** ** Equality of atoms *)

Lemma eq_unfold (a b : Atom) :
  __eq__ a b = true ↔
    lower (elem a) = lower (elem b) ∧ (x a =? x b)%float = true
    ∧ (y a =? y b)%float = true ∧ (z a =? z b)%float = true
    ∧ (q a =? q b)%float = true.
Proof.
  unfold __eq__. rewrite !andb_true_iff, String.eqb_eq. tauto.
Qed.

(** C8, as the code has it: [__eq__] holds exactly when the element strings
    agree after lowering and each of x, y, z and the charge compares equal
    under IEEE [==].  No tolerance is involved, but the comparison is not
    bit-for-bit: zeros of either sign are equal and NaN equals nothing.
    Atoms that differ only in the case of the element are equal; charges
    that differ by 1e-9 make atoms unequal. *)
Theorem eq_is_ieee_equality :
  (∀ a b : Atom,
      __eq__ a b = true ↔
        lower (elem a) = lower (elem b) ∧ ieee_eq (x a) (x b)
        ∧ ieee_eq (y a) (y b) ∧ ieee_eq (z a) (z b) ∧ ieee_eq (q a) (q b))
  ∧ __eq__ (mkAtom "H" 1.5 (-2) 0.25 0.1 1 None None)
           (mkAtom "h" 1.5 (-2) 0.25 0.1 1 None None) = true
  ∧ __eq__ (mkAtom "H" 1.5 (-2) 0.25 0.1 1 None None)
           (mkAtom "H" 1.5 (-2) 0.25 (0.1 + 1e-9) 1 None None) = false.
Proof.
  split; [|split; reflexivity].
  intros a b. rewrite eq_unfold, !eqb_ieee_eq. tauto.
Qed.

(** C8 as stated fails: two atoms whose x fields are [0.0] and [-0.0] are
    equal although the fields differ in their sign bit, and an atom with a
    NaN coordinate is not equal to itself. *)
Lemma eq_not_bitwise :
  (__eq__ (origin "H") (set_x (-0)%float (origin "H")) = true
   ∧ x (origin "H") ≠ x (set_x (-0)%float (origin "H")))
  ∧ __eq__ (set_x nan (origin "H")) (set_x nan (origin "H")) = false.
Proof.
  split; [split|]; [reflexivity | exact zero_ne_neg_zero | reflexivity].
Qed.

(** ** The constructor *)

Lemma init_floats parse e (fx fy fz fq : float) n :
  __init__ parse e (PyFloat fx) (PyFloat fy) (PyFloat fz) (PyFloat fq) n
  = ([], Ok (mkAtom e fx fy fz fq 1 None None)).
Proof. reflexivity. Qed.

Lemma init_num parse e xIn yIn zIn qIn n a :
  (__init__ parse e xIn yIn zIn qIn n).2 = Ok a → num a = 1.
Proof.
  unfold __init__, assign_float.
  destruct (py_float parse xIn) as [fx|[]]; simpl;
    [destruct (py_float parse yIn) as [fy|[]]; simpl;
      [destruct (py_float parse zIn) as [fz|[]]; simpl;
        [destruct (py_float parse qIn) as [fq|[]]; simpl|..]|..]|..];
    intros E; inversion E; reflexivity.
Qed.

(** C6, as the code has it: [__init__] catches [ValueError] only.  When all
    four coercions succeed the fields hold the coerced values; when the
    first failure is a [ValueError] the diagnostic is printed, construction
    succeeds, the fields assigned before the failure keep their values and
    the failing field and every later one stay at 0.0; any other exception
    of [float] escapes the constructor. *)
Theorem init_catches_ValueError parse elemIn xIn yIn zIn qIn n :
  let r := __init__ parse elemIn xIn yIn zIn qIn n in
  let pf := py_float parse in
  (∀ fx fy fz fq,
      pf xIn = Ok fx → pf yIn = Ok fy → pf zIn = Ok fz → pf qIn = Ok fq →
      r = ([], Ok (mkAtom elemIn fx fy fz fq 1 None None)))
  ∧ (pf xIn = Raise ValueError →
      r = ([diagnostic], Ok (mkAtom elemIn 0 0 0 0 1 None None)))
  ∧ (∀ fx, pf xIn = Ok fx → pf yIn = Raise ValueError →
      r = ([diagnostic], Ok (mkAtom elemIn fx 0 0 0 1 None None)))
  ∧ (∀ fx fy, pf xIn = Ok fx → pf yIn = Ok fy → pf zIn = Raise ValueError →
      r = ([diagnostic], Ok (mkAtom elemIn fx fy 0 0 1 None None)))
  ∧ (∀ fx fy fz,
      pf xIn = Ok fx → pf yIn = Ok fy → pf zIn = Ok fz →
      pf qIn = Raise ValueError →
      r = ([diagnostic], Ok (mkAtom elemIn fx fy fz 0 1 None None)))
  ∧ (∀ e, first_raised [pf xIn; pf yIn; pf zIn; pf qIn] = Some e →
      e ≠ ValueError → r = ([], Raise e)).
Proof.
  cbv zeta. unfold __init__, assign_float.
  repeat split.
  - intros fx fy fz fq -> -> -> ->. reflexivity.
  - intros ->. reflexivity.
  - intros fx -> ->. reflexivity.
  - intros fx fy -> -> ->. reflexivity.
  - intros fx fy fz -> -> -> ->. reflexivity.
  - intros e He Hne. simpl in He.
    destruct (py_float parse xIn) as [fx|ex];
      [destruct (py_float parse yIn) as [fy|ey];
        [destruct (py_float parse zIn) as [fz|ez];
          [destruct (py_float parse qIn) as [fq|eq]; [discriminate|]|]|]|];
      inversion He; subst; simpl; by destruct e.
Qed.

Lemma init_catches_ValueError_witness :
  __init__ example_literals "C" (PyStr "1.5") (PyStr "abc") (PyFloat 2)
    (PyInt 3) PyNone
  = ([diagnostic], Ok (mkAtom "C" 1.5 0 0 0 1 None None)).
Proof.
  destruct (init_catches_ValueError example_literals "C" (PyStr "1.5")
              (PyStr "abc") (PyFloat 2) (PyInt 3) PyNone) as (_ & _ & H & _).
  apply H; reflexivity.
Defined.

(** C6 as stated fails: [float(None)] raises [TypeError], which the
    constructor does not catch, so [Atom("H", None)] raises. *)
Lemma init_TypeError_escapes :
  __init__ example_literals "H" PyNone (PyFloat 0) (PyFloat 0) (PyFloat 0)
    (PyInt 1)
  = ([], Raise TypeError).
Proof. reflexivity. Qed.

(** ** Translation *)

Lemma translated_call parse (self : Atom) (dx dy dz : float) :
  translated parse self dx dy dz
  = Call self []
      (Ok (mkAtom (elem self) (x self + dx) (y self + dy) (z self + dz)
             (q self) 1 None None)).
Proof. unfold translated. by rewrite init_floats. Qed.

(** C10: the atom returned by [translated] has the receiver's element and
    charge and the offset coordinates, and comes fresh from the constructor:
    [num] is 1 and [connectivity] and [kind] are [None], whatever the
    receiver's classification was. *)
Theorem translated_is_fresh parse (self : Atom) (dx dy dz : float) :
  ∃ a, returned (translated parse self dx dy dz) = Ok a
       ∧ connectivity a = None ∧ kind a = None ∧ num a = 1
       ∧ elem a = elem self ∧ q a = q self
       ∧ x a = (x self + dx)%float ∧ y a = (y self + dy)%float
       ∧ z a = (z self + dz)%float.
Proof.
  rewrite translated_call. simpl.
  eexists. split; [reflexivity|]. by repeat split.
Qed.

(** C7, as the code has it: neither call assigns to its receiver, and the
    atom obtained by [translated(dx,dy,dz)] then [translated(-dx,-dy,-dz)]
    has the original element and charge and the coordinates
    [(x + dx) + (-dx)], [(y + dy) + (-dy)], [(z + dz) + (-dz)] of binary64
    arithmetic, in which each addition rounds. *)
Theorem translated_there_and_back parse (self : Atom) (dx dy dz : float) :
  let c1 := translated parse self dx dy dz in
  receiver c1 = self
  ∧ ∃ a1, returned c1 = Ok a1
    ∧ let c2 := translated parse a1 (- dx) (- dy) (- dz) in
      receiver c2 = a1
      ∧ ∃ a2, returned c2 = Ok a2
        ∧ elem a2 = elem self ∧ q a2 = q self
        ∧ x a2 = (x self + dx + - dx)%float
        ∧ y a2 = (y self + dy + - dy)%float
        ∧ z a2 = (z self + dz + - dz)%float.
Proof.
  cbv zeta. rewrite translated_call. cbn [receiver returned].
  split; [reflexivity|]. eexists. split; [reflexivity|].
  rewrite translated_call. cbn [receiver returned].
  split; [reflexivity|]. eexists. split; [reflexivity|]. by repeat split.
Qed.

(** C7 as stated fails: from x = 0.1, translating by 0.2 and back by -0.2
    gives x = 0.10000000000000003, which Python's [==] tells from 0.1. *)
Lemma translated_round_trip_inexact :
  (a1 ← returned (translated example_literals
                    (mkAtom "H" 0.1 0 0 0 1 None None) 0.2 0 0);
   a2 ← returned (translated example_literals a1 (- 0.2) (- 0) (- 0));
   Ok (x a2 =? 0.1)%float)
  = Ok false.
Proof. reflexivity. Qed.

(** ** The atomic number *)

Lemma num_to_elem_num (self : Atom) (n : Z) :
  num (receiver (num_to_elem self n)) = num self.
Proof.
  unfold num_to_elem, periodic. simpl.
  repeat (case (n =? _); simpl); reflexivity.
Qed.

Lemma set_connectivity_num (self : Atom) in_atoms in_row :
  num (receiver (set_connectivity self in_atoms in_row)) = num self.
Proof.
  unfold set_connectivity. by destruct (collect_links in_atoms in_row).
Qed.

Lemma electrons_receiver (self : Atom) : receiver (electrons self) = self.
Proof.
  unfold electrons. by repeat (case (String.eqb _ _)).
Qed.

Lemma reachable_num parse (a : Atom) : reachable parse a → num a = 1.
Proof.
  induction 1 as [e xIn yIn zIn qIn n a Ha | a dx dy dz _ IH | a dx dy dz _ IH
                 | a dx dy dz b _ _ Hb | a ps row _ IH | a n _ IH | a _ IH].
  - by eapply init_num.
  - exact IH.
  - by rewrite translated_call.
  - rewrite translated_call in Hb. simpl in Hb. by inversion Hb.
  - by rewrite set_connectivity_num.
  - by rewrite num_to_elem_num.
  - by rewrite electrons_receiver.
Qed.

(** C9: the constructor sets [num] to 1 whatever it is given for [num];
    [translate], [translated], [set_connectivity], [num_to_elem] and
    [electrons] leave the receiver's [num] as it was; hence every atom
    obtained through the constructor and these methods has [num = 1]. *)
Theorem num_is_one parse :
  (∀ elemIn xIn yIn zIn qIn n a,
      (__init__ parse elemIn xIn yIn zIn qIn n).2 = Ok a → num a = 1)
  ∧ (∀ self dx dy dz, num (receiver (translate self dx dy dz)) = num self)
  ∧ (∀ self dx dy dz,
        num (receiver (translated parse self dx dy dz)) = num self)
  ∧ (∀ self in_atoms in_row,
        num (receiver (set_connectivity self in_atoms in_row)) = num self)
  ∧ (∀ self n, num (receiver (num_to_elem self n)) = num self)
  ∧ (∀ self, num (receiver (electrons self)) = num self)
  ∧ (∀ a, reachable parse a → num a = 1).
Proof.
  repeat apply conj.
  - intros *. apply init_num.
  - reflexivity.
  - intros. by rewrite translated_call.
  - intros. apply set_connectivity_num.
  - intros. apply num_to_elem_num.
  - intros. by rewrite electrons_receiver.
  - apply reachable_num.
Qed.

Lemma num_is_one_witness :
  (__init__ example_literals "C" (PyStr "1.5") (PyInt 3) (PyFloat 0.25)
     (PyStr "-2") (PyInt 6)).2
  = Ok (mkAtom "C" 1.5 3 0.25 (-2) 1 None None)
  ∧ num (receiver (num_to_elem
           (receiver (translate (mkAtom "C" 1.5 3 0.25 (-2) 1 None None) 1 2 3))
           8)) = 1.
Proof.
  split; [reflexivity|].
  destruct (num_is_one example_literals) as (_ & _ & _ & _ & _ & _ & H).
  apply H. apply reach_num_to_elem, reach_translate.
  by apply (reach_init _ "C" (PyStr "1.5") (PyInt 3) (PyFloat 0.25)
              (PyStr "-2") (PyInt 6)).
Defined.

(** ** The periodic distance *)

Lemma for_each_app {S A : Type} (body : S → A → result S) (l1 l2 : list A) (s : S) :
  for_each body (l1 ++ l2) s = (s' ← for_each body l1 s; for_each body l2 s').
Proof.
  revert s. induction l1 as [|a l1 IH]; intros s; simpl; [done|].
  destruct (body s a) as [s'|e]; simpl; [apply IH | done].
Qed.

Lemma for_each_ext {S A : Type} (body1 body2 : S → A → result S) (l : list A) (s : S) :
  (∀ s a, body1 s a = body2 s a) → for_each body1 l s = for_each body2 l s.
Proof.
  intros E. revert s. induction l as [|a l IH]; intros s; simpl; [done|].
  rewrite E. destruct (body2 s a) as [s'|e]; simpl; [apply IH | done].
Qed.

(** Nested loops visit the items of the flattened list. *)
Lemma for_each_bind {S A B : Type} (body : S → B → result S) (f : A → list B)
    (l : list A) (s : S) :
  for_each body (l ≫= f) s = for_each (λ s a, for_each body (f a) s) l s.
Proof.
  revert s. induction l as [|a l IH]; intros s; [done|].
  change ((a :: l) ≫= f) with (f a ++ (l ≫= f)).
  rewrite for_each_app. simpl.
  destruct (for_each body (f a) s) as [s'|e]; simpl; [apply IH | done].
Qed.

Lemma scan_shift (self : Atom) (x1 y1 z1 : float) (t1 t2 t3 : vec) st :
  scan self st (shift x1 y1 z1 t1 t2 t3) = lat_body self x1 y1 z1 t1 t2 st t3.
Proof.
  by destruct t1 as [[a0 a1] a2], t2 as [[b0 b1] b2], t3 as [[c0 c1] c2].
Qed.

Lemma dist_lat_scan (self : Atom) (x1 y1 z1 : float) (aVec bVec cVec : vec) :
  dist_lat self x1 y1 z1 aVec bVec cVec
  = (st ← for_each (scan self) (images x1 y1 z1 aVec bVec cVec) (float_inf, None);
     match st.2 with
     | Some (x3, y3, z3) => Ok (st.1, x3, y3, z3)
     | None => Raise UnboundLocalError
     end).
Proof.
  unfold dist_lat, images. cbv zeta. fold (translations aVec).
  fold (translations bVec). fold (translations cVec). f_equal. symmetry.
  rewrite for_each_bind. apply for_each_ext. intros st1 t1.
  rewrite for_each_bind. apply for_each_ext. intros st2 t2.
  rewrite for_each_bind. apply for_each_ext. intros st3 t3.
  simpl. rewrite scan_shift. by destruct (lat_body _ _ _ _ _ _ _ _).
Qed.

Lemma scan_pick (self : Atom) (p : vec) st :
  scan self st p = (r ← dist_to self p; Ok (pick st (r, p))).
Proof. reflexivity. Qed.

Lemma for_each_scan_cons (self : Atom) (p : vec) (ps : list vec) st :
  for_each (scan self) (p :: ps) st
  = (r ← dist_to self p; for_each (scan self) ps (pick st (r, p))).
Proof.
  cbn [for_each]. rewrite scan_pick. by destruct (dist_to self p).
Qed.

Lemma mapM_dist_cons (self : Atom) (p : vec) (ps : list vec) :
  mapM (dist_to self) (p :: ps)
  = (r ← dist_to self p; rs ← mapM (dist_to self) ps; Ok (r :: rs)).
Proof. reflexivity. Qed.

Lemma for_each_scan (self : Atom) (ps : list vec) (rs : list float) st :
  mapM (dist_to self) ps = Ok rs →
  for_each (scan self) ps st = Ok (fold_left pick (zip rs ps) st).
Proof.
  revert rs st. induction ps as [|p ps IH]; intros rs st.
  - intros E. by inversion E.
  - rewrite mapM_dist_cons, for_each_scan_cons.
    destruct (dist_to self p) as [r|e]; simpl; [|done].
    destruct (mapM (dist_to self) ps) as [rs'|e]; simpl; [|done].
    intros E. inversion E; subst. simpl. by apply IH.
Qed.

Lemma for_each_scan_raise (self : Atom) (ps : list vec) (e : exn) st :
  mapM (dist_to self) ps = Raise e → for_each (scan self) ps st = Raise e.
Proof.
  revert st. induction ps as [|p ps IH]; intros st; [done|].
  rewrite mapM_dist_cons, for_each_scan_cons.
  destruct (dist_to self p) as [r|e']; cbn [mbind result_bind];
    [|by intros [= ->]].
  destruct (mapM (dist_to self) ps) as [rs'|e'] eqn:E;
    cbn [mbind result_bind]; [done|].
  intros [= ->]. by apply IH.
Qed.

Lemma mapM_dist_length (self : Atom) (ps : list vec) (rs : list float) :
  mapM (dist_to self) ps = Ok rs → length rs = length ps.
Proof.
  revert rs. induction ps as [|p ps IH]; intros rs.
  - intros E. by inversion E.
  - rewrite mapM_dist_cons.
    destruct (dist_to self p) as [r|e]; simpl; [|done].
    destruct (mapM (dist_to self) ps) as [rs'|e]; simpl; [|done].
    intros E. inversion E; subst. simpl. f_equal. by apply IH.
Qed.

Lemma scanned_start : scanned [] (float_inf, None).
Proof. split; [|done]. intros rp H. by apply elem_of_nil in H. Qed.

Lemma scanned_step pre st rp : scanned pre st → scanned (pre ++ [rp]) (pick st rp).
Proof.
  destruct st as [m img], rp as [r p]. intros [Hlow Himg]. simpl in *.
  unfold pick. simpl. destruct (r <? m)%float eqn:Hr.
  - assert (Hpre : ∀ rp', rp' ∈ pre → (rp'.1 <? r)%float = false).
    { intros rp' Hin. destruct (rp'.1 <? r)%float eqn:E; [|done].
      rewrite <- (Hlow rp' Hin). symmetry. by eapply ltb_trans. }
    split; simpl.
    + intros rp' [Hin| ->%list_elem_of_singleton]%elem_of_app; [by apply Hpre|].
      apply ltb_irrefl.
    + split.
      * destruct img as [p0|]; [|by subst m].
        destruct Himg as [Hinf _]. by eapply ltb_trans.
      * exists (length pre). split.
        { rewrite lookup_app_r by lia. by rewrite Nat.sub_diag. }
        intros j rp' Hj Hl. rewrite lookup_app_l in Hl by done.
        destruct (rp'.1 =? r)%float eqn:E; [|done].
        rewrite <- (Hlow rp' (list_elem_of_lookup_2 _ _ _ Hl)).
        symmetry. by eapply eqb_ltb_trans.
  - split; simpl.
    + intros rp' [Hin| ->%list_elem_of_singleton]%elem_of_app; [by apply Hlow|done].
    + destruct img as [p0|]; [|done].
      destruct Himg as (Hinf & k & Hk & Hfirst). split; [done|].
      exists k. pose proof (lookup_lt_Some _ _ _ Hk) as Hlt. split.
      * by rewrite lookup_app_l.
      * intros j rp' Hj Hl. rewrite lookup_app_l in Hl by lia. by eapply Hfirst.
Qed.

Lemma scanned_fold l : ∀ pre st,
  scanned pre st → scanned (pre ++ l) (fold_left pick l st).
Proof.
  induction l as [|rp l IH]; intros pre st H; simpl.
  - by rewrite app_nil_r.
  - rewrite (cons_middle rp pre l), app_assoc. apply IH. by apply scanned_step.
Qed.

Lemma zip_lookup_l {A B : Type} (l : list A) (k : list B) (j : nat) (a : A) :
  length l = length k → l !! j = Some a → ∃ b, zip l k !! j = Some (a, b).
Proof.
  intros Hlen Hj.
  destruct (lookup_lt_is_Some_2 k j) as [b Hb].
  { rewrite <- Hlen. by eapply lookup_lt_Some. }
  exists b. apply lookup_zip_with_Some. eauto.
Qed.

(** When every distance can be computed and one of them is below [+inf],
    [dist_lat] returns the first minimum and the image that attains it. *)
Lemma dist_lat_first_min (self : Atom) (x1 y1 z1 : float) (aVec bVec cVec : vec)
    (rs : list float) :
  mapM (dist_to self) (images x1 y1 z1 aVec bVec cVec) = Ok rs →
  (∃ r, r ∈ rs ∧ (r <? float_inf)%float = true) →
  ∃ k rMin x3 y3 z3,
    dist_lat self x1 y1 z1 aVec bVec cVec = Ok (rMin, x3, y3, z3)
    ∧ images x1 y1 z1 aVec bVec cVec !! k = Some (x3, y3, z3)
    ∧ first_min rs k rMin.
Proof.
  intros Hrs (r & Hr & Hfin).
  pose proof (mapM_dist_length _ _ _ Hrs) as Hlen.
  rewrite dist_lat_scan, (for_each_scan _ _ _ _ Hrs). cbn [mbind result_bind].
  pose proof (scanned_fold (zip rs (images x1 y1 z1 aVec bVec cVec)) []
                (float_inf, None) scanned_start) as H.
  rewrite app_nil_l in H.
  destruct (fold_left pick _ _) as [m img]. destruct H as [Hlow Himg].
  cbn [fst snd] in *.
  assert (Hall : ∀ r', r' ∈ rs → (r' <? m)%float = false).
  { intros r' [j Hj]%list_elem_of_lookup_1.
    destruct (zip_lookup_l _ _ _ _ Hlen Hj) as [p Hp].
    exact (Hlow _ (list_elem_of_lookup_2 _ _ _ Hp)). }
  destruct img as [[[x3 y3] z3]|].
  - destruct Himg as (_ & k & Hk & Hfirst).
    apply lookup_zip_with_Some in Hk as (m' & p' & [= <- <-] & Hm & Hp).
    exists k, m, x3, y3, z3. split; [done|]. split; [done|].
    split; [done|]. split; [done|].
    intros j r' Hj Hr'. destruct (zip_lookup_l _ _ _ _ Hlen Hr') as [p Hp'].
    exact (Hfirst j _ Hj Hp').
  - subst m. rewrite (Hall r Hr) in Hfin. discriminate Hfin.
Qed.



(** An overflow in one of the squares ends the call. *)
Lemma dist_lat_raise (self : Atom) (x1 y1 z1 : float) (aVec bVec cVec : vec)
    (e : exn) :
  mapM (dist_to self) (images x1 y1 z1 aVec bVec cVec) = Raise e →
  dist_lat self x1 y1 z1 aVec bVec cVec = Raise e.
Proof.
  intros Hrs. by rewrite dist_lat_scan, (for_each_scan_raise _ _ _ _ Hrs).
Qed.

(** C1, as the code has it: when each of the 27 distances is computed
    without overflow and one of them is below [+inf], [dist_lat] returns a
    distance [rMin] and an image such that the image is the [k]-th of the 27
    translated points in the order of the nested loops, [rMin] is its
    distance, no image is strictly closer, and no earlier image is at a
    distance equal to [rMin].  For the atom at the origin, the target
    (0.5, 0, 0) and the unit lattice vectors the result is 0.5 at
    (0.5, 0, 0). *)
Theorem dist_lat_minimum :
  (∀ (self : Atom) (x1 y1 z1 : float) (aVec bVec cVec : vec) (rs : list float),
      mapM (dist_to self) (images x1 y1 z1 aVec bVec cVec) = Ok rs →
      (∃ r, r ∈ rs ∧ (r <? float_inf)%float = true) →
      ∃ k rMin x3 y3 z3,
        dist_lat self x1 y1 z1 aVec bVec cVec = Ok (rMin, x3, y3, z3)
        ∧ images x1 y1 z1 aVec bVec cVec !! k = Some (x3, y3, z3)
        ∧ first_min rs k rMin)
  ∧ dist_lat (origin "H") 0.5 0 0 unit_a unit_b unit_c
    = Ok (0.5, 0.5, 0, 0)%float.
Proof.
  split; [apply dist_lat_first_min | reflexivity].
Qed.

Lemma dist_lat_minimum_witness :
  ∃ rs k rMin x3 y3 z3,
    mapM (dist_to (origin "C"))
      (images 0.25 0.75 (-3) (2, 0, 0)%float (0.5, 2, 0)%float (0, 0, 4)%float)
    = Ok rs
    ∧ dist_lat (origin "C") 0.25 0.75 (-3) (2, 0, 0)%float (0.5, 2, 0)%float
        (0, 0, 4)%float
      = Ok (rMin, x3, y3, z3)
    ∧ images 0.25 0.75 (-3) (2, 0, 0)%float (0.5, 2, 0)%float (0, 0, 4)%float
        !! k = Some (x3, y3, z3)
    ∧ first_min rs k rMin.
Proof.
  exists (match mapM (dist_to (origin "C"))
                  (images 0.25 0.75 (-3) (2, 0, 0)%float (0.5, 2, 0)%float
                     (0, 0, 4)%float) with
          | Ok rs => rs
          | Raise _ => []
          end).
  assert (∀ (P : Prop) (Q : nat → float → float → float → float → Prop),
            P → (P → ∃ k rMin x3 y3 z3, Q k rMin x3 y3 z3) →
            ∃ k rMin x3 y3 z3, P ∧ Q k rMin x3 y3 z3) as Hex.
  { intros P Q HP HQ. destruct (HQ HP) as (k & rMin & x3 & y3 & z3 & H).
    by exists k, rMin, x3, y3, z3. }
  apply Hex; [reflexivity|]. intros Hrs.
  apply (proj1 dist_lat_minimum); [exact Hrs|].
  eexists. split; [left | reflexivity].
Defined.

(** C1 as stated fails: for the finite target (1e200, 0, 0) the squares
    overflow and the call raises; for a target with a NaN coordinate no
    distance is below [+inf], the image is never assigned, and the call
    raises as well. *)
Lemma dist_lat_raises :
  dist_lat (origin "H") 1e200 0 0 unit_a unit_b unit_c = Raise OverflowError
  ∧ dist_lat (origin "H") nan 0 0 unit_a unit_b unit_c
    = Raise UnboundLocalError.
Proof. split; reflexivity. Qed.

(** *** Zero lattice vectors *)

Lemma dist_same (self : Atom) (x1 y1 z1 x2 y2 z2 : float) :
  same_value x2 x1 → same_value y2 y1 → same_value z2 z1 →
  dist self x2 y2 z2 = dist self x1 y1 z1.
Proof.
  intros Hx Hy Hz. unfold dist.
  rewrite (py_sq_same (x self - x2) (x self - x1)) by by apply sub_same.
  rewrite (py_sq_same (y self - y2) (y self - y1)) by by apply sub_same.
  by rewrite (py_sq_same (z self - z2) (z self - z1)) by by apply sub_same.
Qed.

Lemma translations_zero (v t : vec) : zero_vec v → t ∈ translations v → zero_vec t.
Proof.
  destruct v as [[v0 v1] v2]. intros (H0 & H1 & H2) Hin.
  unfold translations in Hin. cbn in H0, H1, H2.
  apply elem_of_cons in Hin as [->|Hin]; [done|].
  apply elem_of_cons in Hin as [->|Hin]; [by repeat split; left|].
  apply list_elem_of_singleton in Hin as ->.
  repeat split; by apply neg_signed_zero.
Qed.

Lemma add_zeros_same (u a b c : float) :
  signed_zero a → signed_zero b → signed_zero c →
  same_value (u + a + b + c)%float u.
Proof.
  intros Ha Hb Hc.
  eapply same_value_trans; [by apply add_zero_same|].
  eapply same_value_trans; [by apply add_zero_same|].
  by apply add_zero_same.
Qed.

Lemma shift_zero_same (x1 y1 z1 : float) (t1 t2 t3 : vec) :
  zero_vec t1 → zero_vec t2 → zero_vec t3 →
  let p := shift x1 y1 z1 t1 t2 t3 in
  same_value p.1.1 x1 ∧ same_value p.1.2 y1 ∧ same_value p.2 z1.
Proof.
  destruct t1 as [[a0 a1] a2], t2 as [[b0 b1] b2], t3 as [[c0 c1] c2].
  intros (?&?&?) (?&?&?) (?&?&?). cbn in *.
  repeat split; by apply add_zeros_same.
Qed.

Lemma elem_of_images (p : vec) (x1 y1 z1 : float) (aVec bVec cVec : vec) :
  p ∈ images x1 y1 z1 aVec bVec cVec →
  ∃ t1 t2 t3, t1 ∈ translations aVec ∧ t2 ∈ translations bVec
              ∧ t3 ∈ translations cVec ∧ p = shift x1 y1 z1 t1 t2 t3.
Proof.
  unfold images.
  intros (t1 & (t2 & (t3 & Hp & H3)%list_elem_of_bind & H2)%list_elem_of_bind
          & H1)%list_elem_of_bind.
  apply list_elem_of_singleton in Hp. eauto 10.
Qed.

Lemma images_zero_same (p : vec) (x1 y1 z1 : float) (aVec bVec cVec : vec) :
  zero_vec aVec → zero_vec bVec → zero_vec cVec →
  p ∈ images x1 y1 z1 aVec bVec cVec →
  same_value p.1.1 x1 ∧ same_value p.1.2 y1 ∧ same_value p.2 z1.
Proof.
  intros Ha Hb Hc (t1 & t2 & t3 & H1 & H2 & H3 & ->)%elem_of_images.
  apply shift_zero_same;
    [exact (translations_zero _ _ Ha H1) | exact (translations_zero _ _ Hb H2)
    | exact (translations_zero _ _ Hc H3)].
Qed.

Lemma mapM_dist_const (self : Atom) (ps : list vec) (r : float) :
  (∀ p, p ∈ ps → dist_to self p = Ok r) →
  mapM (dist_to self) ps = Ok (replicate (length ps) r).
Proof.
  induction ps as [|p ps IH]; intros H; [done|].
  rewrite mapM_dist_cons, (H p) by left. cbn [mbind result_bind].
  rewrite IH; [done|]. intros p' Hin. apply H. by right.
Qed.

Lemma dist_Ok_inv (self : Atom) (x1 y1 z1 r : float) :
  dist self x1 y1 z1 = Ok r →
  ∃ dx dy dz, py_sq (x self - x1) = Ok dx ∧ py_sq (y self - y1) = Ok dy
              ∧ py_sq (z self - z1) = Ok dz ∧ r = sqrt (dx + dy + dz).
Proof.
  unfold dist.
  destruct (py_sq (x self - x1)) as [dx|]; [|done].
  destruct (py_sq (y self - y1)) as [dy|]; [|done].
  destruct (py_sq (z self - z1)) as [dz|]; [|done].
  intros [= <-]. by exists dx, dy, dz.
Qed.

(** A finite distance has no NaN among the coordinates of its point. *)
Lemma dist_finite_not_nan (self : Atom) (x1 y1 z1 r : float) :
  dist self x1 y1 z1 = Ok r → (r <? float_inf)%float = true →
  x1 ≠ nan ∧ y1 ≠ nan ∧ z1 ≠ nan.
Proof.
  intros (dx & dy & dz & Hx & Hy & Hz & ->)%dist_Ok_inv Hr.
  repeat split; intros ->.
  - rewrite sub_nan_r in Hx. injection Hx as <-.
    rewrite !add_nan_l in Hr. discriminate Hr.
  - rewrite sub_nan_r in Hy. injection Hy as <-.
    rewrite add_nan_r, add_nan_l in Hr. discriminate Hr.
  - rewrite sub_nan_r in Hz. injection Hz as <-.
    rewrite add_nan_r in Hr. discriminate Hr.
Qed.

(** C5, as the code has it: when the lattice vectors are zero and the
    distance [dist] of the target is computed without overflow and is below
    [+inf], [dist_lat] returns that distance, and image coordinates that
    compare equal to the target's. *)
Theorem dist_lat_zero_lattice (self : Atom) (x1 y1 z1 : float)
    (aVec bVec cVec : vec) (r : float) :
  zero_vec aVec → zero_vec bVec → zero_vec cVec →
  dist self x1 y1 z1 = Ok r → (r <? float_inf)%float = true →
  ∃ x3 y3 z3,
    dist_lat self x1 y1 z1 aVec bVec cVec = Ok (r, x3, y3, z3)
    ∧ (x3 =? x1)%float = true ∧ (y3 =? y1)%float = true
    ∧ (z3 =? z1)%float = true.
Proof.
  intros Ha Hb Hc Hd Hr.
  set (ps := images x1 y1 z1 aVec bVec cVec).
  assert (Hsame : ∀ p, p ∈ ps →
            same_value p.1.1 x1 ∧ same_value p.1.2 y1 ∧ same_value p.2 z1)
    by (intros p; by apply images_zero_same).
  assert (Hrs : mapM (dist_to self) ps = Ok (replicate (length ps) r)).
  { apply mapM_dist_const. intros p (Hx & Hy & Hz)%Hsame.
    unfold dist_to. by rewrite (dist_same self x1 y1 z1). }
  destruct (dist_lat_first_min self x1 y1 z1 aVec bVec cVec _ Hrs)
    as (k & rMin & x3 & y3 & z3 & Hcall & Hk & Hm & _ & Hfirst).
  { exists r. split; [|done]. apply elem_of_replicate. split; [done|].
    unfold ps, images, translations. by destruct aVec, bVec, cVec. }
  apply lookup_replicate in Hm as [-> Hlt].
  assert (k = 0%nat) as ->.
  { destruct k as [|k]; [done|].
    assert ((r =? r)%float = false) as Hrr.
    { apply (Hfirst 0%nat); [lia|]. apply lookup_replicate. split; [done | lia]. }
    rewrite (ltb_eqb_refl r float_inf Hr) in Hrr. discriminate Hrr. }
  destruct (Hsame _ (list_elem_of_lookup_2 _ _ _ Hk)) as (Hx & Hy & Hz).
  destruct (dist_finite_not_nan _ _ _ _ _ Hd Hr) as (Nx & Ny & Nz).
  exists x3, y3, z3. cbn in Hx, Hy, Hz.
  split; [done|]. repeat split; by apply same_value_eqb.
Qed.

Lemma dist_lat_zero_lattice_witness :
  dist (mkAtom "O" 1.5 (-0) 2 0 1 None None) 0.1 (-0) (-1) = Ok 3.3105890714493698%float
  ∧ ∃ x3 y3 z3,
      dist_lat (mkAtom "O" 1.5 (-0) 2 0 1 None None) 0.1 (-0) (-1) nVec nVec nVec
      = Ok (3.3105890714493698, x3, y3, z3)%float
      ∧ (x3 =? 0.1)%float = true ∧ (y3 =? -0)%float = true
      ∧ (z3 =? -1)%float = true.
Proof.
  split; [reflexivity|].
  apply dist_lat_zero_lattice; try reflexivity; by repeat split; left.
Defined.

(** C5 as stated fails: for a target with an infinite or NaN coordinate
    [dist] returns [+inf] or NaN, while [dist_lat] with zero lattice vectors
    never assigns the image and raises. *)
Lemma dist_lat_zero_lattice_raises :
  (dist (origin "H") infinity 0 0 = Ok infinity
   ∧ dist_lat (origin "H") infinity 0 0 nVec nVec nVec = Raise UnboundLocalError)
  ∧ (dist (origin "H") nan 0 0 = Ok nan
     ∧ dist_lat (origin "H") nan 0 0 nVec nVec nVec = Raise UnboundLocalError).
Proof. repeat split; reflexivity. Qed.

(** ** Connectivity *)

(** *** The loop over the peers *)

Lemma bonded_cons (a : Atom) (b : Z) in_atoms in_row :
  bonded (a :: in_atoms) (b :: in_row)
  = if b =? 0 then bonded in_atoms in_row
    else (elem a, b) :: bonded in_atoms in_row.
Proof.
  unfold bonded. cbn [fmap list_fmap zip zip_with]. rewrite filter_cons.
  cbn [snd]. destruct (Z.eqb_spec b 0) as [->|Hb]; by case_decide.
Qed.

Lemma link_step_at (in_atoms : list Atom) (in_row : list Z) (acc : list link)
    (i : nat) (a' a : Atom) (b : Z) :
  in_row !! i = Some b → in_atoms !! i = Some a →
  link_step in_atoms in_row acc (i, a')
  = Ok (if b =? 0 then acc else acc ++ [(elem a, b)]).
Proof.
  intros Hb Ha. unfold link_step. rewrite Hb, Ha. by destruct (b =? 0).
Qed.

Lemma collect_links_from (in_atoms : list Atom) (in_row : list Z) :
  ∀ (sa : list Atom) (sr : list Z) (k : nat) (acc : list link),
    (∀ i, sa !! i = in_atoms !! (k + i)%nat) →
    (∀ i, sr !! i = in_row !! (k + i)%nat) →
    (length sa ≤ length sr)%nat →
    for_each (link_step in_atoms in_row) (imap (λ i a, ((k + i)%nat, a)) sa) acc
    = Ok (acc ++ bonded sa sr).
Proof.
  induction sa as [|a sa IH]; intros sr k acc Ha Hr Hlen.
  - unfold bonded. simpl. by rewrite app_nil_r.
  - destruct sr as [|b sr]; [simpl in Hlen; lia|].
    rewrite imap_cons. cbn [for_each].
    rewrite (link_step_at in_atoms in_row acc (k + 0) a a b)
      by (by rewrite <- ?(Hr 0%nat), <- ?(Ha 0%nat)).
    rewrite bonded_cons.
    assert (∀ acc',
      for_each (link_step in_atoms in_row)
        (imap ((λ i a0, ((k + i)%nat, a0)) ∘ S) sa) acc'
      = Ok (acc' ++ bonded sa sr)) as Hrest.
    { intros acc'.
      rewrite (imap_ext _ (λ i a0, ((S k + i)%nat, a0))).
      - apply IH.
        + intros i. specialize (Ha (S i)). by rewrite Nat.add_succ_r in Ha.
        + intros i. specialize (Hr (S i)). by rewrite Nat.add_succ_r in Hr.
        + simpl in Hlen. lia.
      - intros i a0 _. simpl. f_equal. lia. }
    cbn [mbind result_bind]. rewrite Hrest.
    destruct (b =? 0); [done|]. by rewrite <- app_assoc.
Qed.

(** With a row at least as long as the peer list, the loop gathers the
    bonds in the order of the peers. *)
Lemma collect_links_bonded (in_atoms : list Atom) (in_row : list Z) :
  (length in_atoms ≤ length in_row)%nat →
  collect_links in_atoms in_row = Ok (bonded in_atoms in_row).
Proof.
  intros Hlen. unfold collect_links.
  rewrite (imap_ext _ (λ i a, ((0 + i)%nat, a))) by done.
  by rewrite (collect_links_from in_atoms in_row in_atoms in_row).
Qed.

(** *** The table of counts *)

Lemma multiplicity_snoc (k k' : link) (l : list link) :
  multiplicity k' (l ++ [k])
  = (multiplicity k' l + if decide (k = k') then 1 else 0)%nat.
Proof.
  unfold multiplicity. rewrite filter_app, length_app. f_equal.
  rewrite filter_cons, filter_nil. by repeat case_decide.
Qed.

Lemma multiplicity_pos (k : link) (l : list link) :
  k ∈ l ↔ (0 < multiplicity k l)%nat.
Proof.
  unfold multiplicity. induction l as [|k' l IH].
  - split; [by intros ?%elem_of_nil | simpl; lia].
  - rewrite filter_cons, elem_of_cons. case_decide; simpl.
    + split; [lia | by left; subst].
    + rewrite <- IH. split; [by intros [->|] | by right].
Qed.

Lemma counter_incr_keys (k : link) (c : list bond) :
  (counter_incr k c).*1 = if decide (k ∈ c.*1) then c.*1 else c.*1 ++ [k].
Proof.
  induction c as [|[k' n] c IH].
  - by rewrite decide_False by by intros ?%elem_of_nil.
  - cbn [counter_incr fmap list_fmap fst].
    destruct (decide (k = k')) as [->|Hne]; cbn [fmap list_fmap fst].
    + by rewrite decide_True by left.
    + rewrite IH. destruct (decide (k ∈ c.*1)) as [Hin|Hnin].
      * by rewrite decide_True by by right.
      * rewrite decide_False; [done|]. by intros [?|?]%elem_of_cons.
Qed.

Lemma elem_of_keys (c : list bond) (k : link) (n : nat) : (k, n) ∈ c → k ∈ c.*1.
Proof. intros Hin. apply list_elem_of_fmap. by exists (k, n). Qed.

Lemma counter_incr_elem (k k' : link) (n : nat) (c : list bond) :
  NoDup (c.*1) →
  (k', n) ∈ counter_incr k c ↔
    (k' ≠ k ∧ (k', n) ∈ c)
    ∨ (k' = k ∧ (((k ∉ c.*1) ∧ n = 1%nat) ∨ ∃ m, (k, m) ∈ c ∧ n = S m)).
Proof.
  induction c as [|[k0 n0] c IH]; intros Hnd.
  - cbn [counter_incr fmap list_fmap]. rewrite list_elem_of_singleton.
    pose proof (elem_of_nil (A:=bond)) as Hnil.
    pose proof (elem_of_nil (A:=link)) as Hnil'. naive_solver.
  - cbn [fmap list_fmap fst] in Hnd. apply NoDup_cons in Hnd as [Hk0 Hnd].
    specialize (IH Hnd). pose proof (elem_of_keys c) as Hkeys.
    cbn [counter_incr fmap list_fmap fst].
    destruct (decide (k = k0)) as [->|Hne].
    + rewrite !elem_of_cons. split.
      * intros [[= -> ->]|Hin].
        { right. split; [done|]. right. exists n0. split; [by left|done]. }
        left. split; [|by right]. intros ->. by apply Hk0, (Hkeys _ n).
      * intros [[Hne [[= -> ->]|Hin]]|[-> [[Hnin _]|(m & Hm & ->)]]].
        { done. }
        { by right. }
        { destruct Hnin. by left. }
        apply elem_of_cons in Hm as [[= ->]|Hm]; [by left|].
        destruct Hk0. by apply (Hkeys _ m).
    + rewrite !elem_of_cons, IH. split.
      * intros [[= -> ->]|[[Hne' Hin]|[-> [[Hnin ->]|(m & Hm & ->)]]]].
        { left. split; [by intros ->|by left]. }
        { left. split; [done|by right]. }
        { right. split; [done|]. left. split; [|done].
          by intros [?|?]. }
        right. split; [done|]. right. exists m. split; [by right|done].
      * intros [[Hne' [[= -> ->]|Hin]]|[-> [[Hnin ->]|(m & Hm & ->)]]].
        { by left. }
        { right. left. done. }
        { right. right. split; [done|]. left. split; [|done].
          intros Hin. apply Hnin. by right. }
        apply elem_of_cons in Hm as [[= ->]|Hm]; [done|].
        right. right. split; [done|]. right. by exists m.
Qed.

Lemma Counter_snoc (l : list link) (k : link) :
  Counter (l ++ [k]) = counter_incr k (Counter l).
Proof. unfold Counter. by rewrite fold_left_app. Qed.

Lemma counts_of_key (c : list bond) (l : list link) (k : link) :
  counts_of c l → k ∈ c.*1 ↔ k ∈ l.
Proof.
  intros [_ H]. rewrite list_elem_of_fmap. split.
  - intros ([k' n] & -> & Hin). by apply H in Hin as [? _].
  - intros Hin. exists (k, multiplicity k l). split; [done|]. by apply H.
Qed.

Lemma multiplicity_zero (k : link) (l : list link) :
  k ∉ l → multiplicity k l = 0%nat.
Proof.
  intros Hnin. destruct (multiplicity k l) eqn:E; [done|].
  destruct Hnin. apply multiplicity_pos. lia.
Qed.

Lemma counts_of_snoc (c : list bond) (l : list link) (k : link) :
  counts_of c l → counts_of (counter_incr k c) (l ++ [k]).
Proof.
  intros Hc. pose proof Hc as [Hnd H]. split.
  - rewrite counter_incr_keys. case_decide as Hin; [done|].
    apply NoDup_app. split; [done|]. split; [|apply NoDup_singleton].
    by intros k' Hk' ->%list_elem_of_singleton.
  - intros k' n. rewrite (counter_incr_elem _ _ _ _ Hnd), multiplicity_snoc.
    rewrite elem_of_app, list_elem_of_singleton, (counts_of_key c l k Hc).
    split.
    + intros [[Hne [Hin ->]%H]|[-> [[Hnin ->]|(m & [Hin ->]%H & ->)]]].
      * split; [by left|]. rewrite decide_False by done. lia.
      * split; [by right|]. rewrite decide_True by done.
        by rewrite multiplicity_zero.
      * split; [by left|]. rewrite decide_True by done. lia.
    + intros [Hin ->]. destruct (decide (k = k')) as [<-|Hne].
      * right. split; [done|]. destruct (decide (k ∈ l)) as [Hl|Hl].
        { right. exists (multiplicity k l). split; [by apply H | lia]. }
        left. split; [done|]. by rewrite multiplicity_zero.
      * left. split; [done|]. apply H. split; [|lia].
        by destruct Hin as [?| ->].
Qed.

Lemma Counter_counts (l : list link) : counts_of (Counter l) l.
Proof.
  induction l as [|k l IH] using rev_ind.
  - split; [constructor|]. intros k n. split.
    + by intros ?%elem_of_nil.
    + by intros [?%elem_of_nil _].
  - rewrite Counter_snoc. by apply counts_of_snoc.
Qed.

(** *** The sort and the frozenset *)

Lemma insert_by_count_perm (e : bond) (l : list bond) :
  insert_by_count e l ≡ₚ e :: l.
Proof.
  induction l as [|e' l IH]; [done|]. simpl.
  destruct (e.2 <? e'.2)%nat; [|done].
  rewrite IH. apply Permutation_swap.
Qed.

Lemma most_common_perm (c : list bond) : most_common c ≡ₚ c.
Proof.
  induction c as [|e c IH]; [done|]. simpl.
  by rewrite insert_by_count_perm, IH.
Qed.

(** The entries of the connectivity are the bonds with their counts. *)
Lemma elem_of_frozenset (l : list link) (k : link) (n : nat) :
  (k, n) ∈ (list_to_set (most_common (Counter l)) : gset bond)
  ↔ k ∈ l ∧ n = multiplicity k l.
Proof.
  rewrite elem_of_list_to_set, most_common_perm.
  apply (Counter_counts l).
Qed.

Lemma multiplicity_perm (k : link) (l1 l2 : list link) :
  l1 ≡ₚ l2 → multiplicity k l1 = multiplicity k l2.
Proof. intros Hp. unfold multiplicity. by rewrite Hp. Qed.

(** The connectivity depends on the bonds as a multiset only. *)
Lemma frozenset_perm (l1 l2 : list link) :
  l1 ≡ₚ l2 →
  (list_to_set (most_common (Counter l1)) : gset bond)
  = list_to_set (most_common (Counter l2)).
Proof.
  intros Hp. apply set_eq. intros [k n].
  rewrite !elem_of_frozenset, (multiplicity_perm k l1 l2 Hp). by rewrite Hp.
Qed.

Lemma set_connectivity_call (self : Atom) (in_atoms : list Atom) (in_row : list Z) :
  (length in_atoms ≤ length in_row)%nat →
  set_connectivity self in_atoms in_row
  = let conn : gset bond :=
      list_to_set (most_common (Counter (bonded in_atoms in_row))) in
    Call (mkAtom (elem self) (x self) (y self) (z self) (q self) (num self)
            (Some conn) (Some (elem self, conn)))
         [] (Ok tt).
Proof.
  intros Hlen. unfold set_connectivity.
  by rewrite (collect_links_bonded _ _ Hlen).
Qed.

(** C2: with a row as long as the peer list, [set_connectivity] sets
    [connectivity] to the set of the pairs of a bond (peer element, row
    entry) and its number of occurrences, over the peers whose row entry is
    not zero, and sets [kind] to the atom's element paired with that
    connectivity.  An atom bonded to two carbons with order 1 and one oxygen
    with order 2 gets exactly [(("C",1),2)] and [(("O",2),1)]. *)
Theorem set_connectivity_counts :
  (∀ (self : Atom) (in_atoms : list Atom) (in_row : list Z),
      length in_atoms = length in_row →
      ∃ conn : gset bond,
        set_connectivity self in_atoms in_row
        = Call (mkAtom (elem self) (x self) (y self) (z self) (q self)
                  (num self) (Some conn) (Some (elem self, conn)))
               [] (Ok tt)
        ∧ ∀ k n, (k, n) ∈ conn ↔
                   k ∈ bonded in_atoms in_row
                   ∧ n = multiplicity k (bonded in_atoms in_row))
  ∧ receiver (set_connectivity (origin "N")
                [origin "C"; origin "H"; origin "O"; origin "C"] [1; 0; 2; 1])
    = mkAtom "N" 0 0 0 0 1
        (Some {[ ("C", 1, 2%nat); ("O", 2, 1%nat) ]})
        (Some ("N"%string, {[ ("C", 1, 2%nat); ("O", 2, 1%nat) ]})).
Proof.
  split.
  - intros self in_atoms in_row Hlen. eexists. split.
    + rewrite set_connectivity_call by lia. reflexivity.
    + intros k n. apply elem_of_frozenset.
  - vm_compute. reflexivity.
Qed.

Lemma set_connectivity_counts_witness :
  ∃ conn : gset bond,
    set_connectivity (origin "H") [origin "O"; origin "C"; origin "O"] [2; 0; 2]
    = Call (mkAtom "H" 0 0 0 0 1 (Some conn) (Some ("H"%string, conn)))
        [] (Ok tt)
    ∧ ∀ k n, (k, n) ∈ conn ↔
               k ∈ bonded [origin "O"; origin "C"; origin "O"] [2; 0; 2]
               ∧ n = multiplicity k
                       (bonded [origin "O"; origin "C"; origin "O"] [2; 0; 2]).
Proof.
  apply (proj1 set_connectivity_counts (origin "H")
           [origin "O"; origin "C"; origin "O"] [2; 0; 2]).
  reflexivity.
Defined.

(** *** Reordering the peers *)

Lemma permute_seq_from {A : Type} (pre l : list A) :
  omap (λ i, (pre ++ l) !! i) (seq (length pre) (length l)) = l.
Proof.
  revert pre. induction l as [|a l IH]; intros pre; [done|].
  cbn [length seq]. csimpl. rewrite list_lookup_middle by done. f_equal.
  specialize (IH (pre ++ [a])).
  rewrite <- app_assoc, length_app, Nat.add_1_r in IH. exact IH.
Qed.

Lemma permute_seq {A : Type} (l : list A) : permute (seq 0 (length l)) l = l.
Proof. exact (permute_seq_from [] l). Qed.

Lemma permute_perm {A : Type} (σ : list nat) (l : list A) :
  σ ≡ₚ seq 0 (length l) → permute σ l ≡ₚ l.
Proof.
  intros Hp. rewrite <- (permute_seq l) at 2. unfold permute. by rewrite Hp.
Qed.

Lemma permute_fmap {A B : Type} (f : A → B) (σ : list nat) (l : list A) :
  f <$> permute σ l = permute σ (f <$> l).
Proof.
  unfold permute. induction σ as [|i σ IH]; [done|].
  csimpl. rewrite list_lookup_fmap.
  destruct (l !! i); csimpl; by rewrite <- IH.
Qed.

Lemma permute_zip {A B : Type} (σ : list nat) (l : list A) (k : list B) :
  length l = length k →
  permute σ (zip l k) = zip (permute σ l) (permute σ k).
Proof.
  intros Hlen. unfold permute. induction σ as [|i σ IH]; [done|].
  csimpl. rewrite lookup_zip_with.
  destruct (l !! i) as [a|] eqn:Ea; csimpl.
  - destruct (lookup_lt_is_Some_2 k i) as [b Eb].
    { rewrite <- Hlen. by eapply lookup_lt_Some. }
    rewrite Eb. csimpl. by rewrite IH.
  - rewrite (lookup_ge_None_2 k i).
    { by rewrite IH. }
    rewrite <- Hlen. by apply lookup_ge_None.
Qed.

Lemma bonded_permute (σ : list nat) (in_atoms : list Atom) (in_row : list Z) :
  length in_atoms = length in_row →
  σ ≡ₚ seq 0 (length in_atoms) →
  bonded (permute σ in_atoms) (permute σ in_row) ≡ₚ bonded in_atoms in_row.
Proof.
  intros Hlen Hp. unfold bonded.
  rewrite permute_fmap, <- permute_zip by by rewrite length_fmap.
  apply filter_Permutation, permute_perm.
  by rewrite length_zip_with, length_fmap, <- Hlen, Nat.min_id.
Qed.

(** C4: with a row as long as the peer list, reordering the peers and the
    row by one permutation of the indices changes nothing of what
    [set_connectivity] does: the receiver ends with the same connectivity
    and the same kind. *)
Theorem set_connectivity_permutation (self : Atom) (in_atoms : list Atom)
    (in_row : list Z) (σ : list nat) :
  length in_atoms = length in_row →
  σ ≡ₚ seq 0 (length in_atoms) →
  set_connectivity self (permute σ in_atoms) (permute σ in_row)
  = set_connectivity self in_atoms in_row.
Proof.
  intros Hlen Hp.
  assert (length (permute σ in_atoms) = length (permute σ in_row)) as Hlen'.
  { rewrite (Permutation_length (permute_perm σ in_atoms Hp)).
    rewrite Hlen in Hp.
    by rewrite (Permutation_length (permute_perm σ in_row Hp)). }
  rewrite !set_connectivity_call by lia. cbv zeta.
  by rewrite (frozenset_perm _ _ (bonded_permute σ _ _ Hlen Hp)).
Qed.

Lemma set_connectivity_permutation_witness :
  set_connectivity (origin "N")
    (permute [2; 0; 3; 1]%nat [origin "C"; origin "H"; origin "O"; origin "C"])
    (permute [2; 0; 3; 1]%nat [1; 0; 2; 1])
  = set_connectivity (origin "N")
      [origin "C"; origin "H"; origin "O"; origin "C"] [1; 0; 2; 1].
Proof.
  apply set_connectivity_permutation; [reflexivity|].
  apply (Permutation_trans (l' := [0; 2; 3; 1]%nat)); [apply Permutation_swap|].
  apply Permutation_skip.
  apply (Permutation_trans (l' := [2; 1; 3]%nat));
    [apply Permutation_skip, Permutation_swap|].
  apply (Permutation_trans (l' := [1; 2; 3]%nat)); [apply Permutation_swap|].
  reflexivity.
Defined.

(** *** The order of [most_common], and what the frozenset keeps of it *)

Lemma precedes_cons (e : bond) (c : list bond) (e1 e2 : bond) :
  precedes c e1 e2 → precedes (e :: c) e1 e2.
Proof.
  intros (i & j & Hij & H1 & H2). exists (S i), (S j).
  split; [lia|]. by split.
Qed.

Lemma precedes_head (e : bond) (c : list bond) (e2 : bond) :
  e2 ∈ c → precedes (e :: c) e e2.
Proof.
  intros [j Hj]%list_elem_of_lookup_1. exists 0%nat, (S j).
  split; [lia|]. by split.
Qed.

Lemma ranked_cons (e : bond) (c : list bond) (e1 e2 : bond) :
  ranked c e1 e2 → ranked (e :: c) e1 e2.
Proof.
  intros [Hlt|[Heq Hp]]; [by left|]. right. split; [done|].
  by apply precedes_cons.
Qed.

(** Inserting the entry that stands first in the table keeps the list in
    the order of [most_common]. *)
Lemma insert_by_count_sorted (e : bond) (c l : list bond) :
  (∀ e', e' ∈ l → e' ∈ c) →
  StronglySorted (ranked c) l →
  StronglySorted (ranked (e :: c)) (insert_by_count e l).
Proof.
  intros Hsub Hs. induction Hs as [|e' l Hs IH Hall]; simpl.
  - repeat constructor.
  - assert (Hl : ∀ e'', e'' ∈ l → e'' ∈ c) by (intros; apply Hsub; by right).
    destruct (e.2 <? e'.2)%nat eqn:Hcmp.
    + apply Nat.ltb_lt in Hcmp. constructor; [by apply IH|].
      rewrite insert_by_count_perm. constructor; [by left|].
      eapply Forall_impl; [exact Hall|]. intros; by apply ranked_cons.
    + apply Nat.ltb_ge in Hcmp.
      assert (Hle : Forall (λ e'', (e''.2 ≤ e.2)%nat) (e' :: l)).
      { constructor; [done|]. eapply Forall_impl; [exact Hall|].
        intros e'' [Hlt|[Heq _]]; simpl in *; lia. }
      constructor.
      * constructor.
        { eapply (StronglySorted_ind (λ l, StronglySorted (ranked (e :: c)) l));
            [constructor| |exact Hs].
          intros a l' _ Hl' Ha. constructor; [done|].
          eapply Forall_impl; [exact Ha|]. intros; by apply ranked_cons. }
        eapply Forall_impl; [exact Hall|]. intros; by apply ranked_cons.
      * apply Forall_forall. intros e'' Hin.
        pose proof (proj1 (Forall_forall _ _) Hle e'' Hin) as Hc. simpl in Hc.
        destruct (decide (e''.2 = e.2)) as [Heq|Hne].
        { right. split; [done|]. by apply precedes_head, Hsub. }
        left. lia.
Qed.

Lemma most_common_sorted (c : list bond) :
  StronglySorted (ranked c) (most_common c).
Proof.
  induction c as [|e c IH]; [constructor|]. simpl.
  apply insert_by_count_sorted; [|done].
  intros e' Hin. by rewrite most_common_perm in Hin.
Qed.

Lemma StronglySorted_lookup {A : Type} (R : A → A → Prop) (l : list A)
    (i j : nat) (a b : A) :
  StronglySorted R l → (i < j)%nat → l !! i = Some a → l !! j = Some b → R a b.
Proof.
  intros Hs. revert i j. induction Hs as [|a' l Hs IH Hall]; intros i j Hij Hi Hj.
  - done.
  - destruct j as [|j]; [lia|]. destruct i as [|i].
    + injection Hi as ->. apply (proj1 (Forall_forall _ _) Hall).
      by eapply list_elem_of_lookup_2.
    + apply (IH i j); [lia|done|done].
Qed.

Lemma first_pos_app_l (k : link) (l l' : list link) :
  k ∈ l → first_pos k (l ++ l') = first_pos k l.
Proof.
  induction l as [|k' l IH]; [by intros ?%elem_of_nil|].
  intros Hin. simpl. destruct (decide (k = k')) as [->|Hne]; [done|].
  f_equal. apply IH. by apply elem_of_cons in Hin as [?|?].
Qed.

Lemma first_pos_lt (k : link) (l : list link) :
  k ∈ l → (first_pos k l < length l)%nat.
Proof.
  induction l as [|k' l IH]; [by intros ?%elem_of_nil|].
  intros Hin. simpl. destruct (decide (k = k')) as [->|Hne]; [lia|].
  apply elem_of_cons in Hin as [?|Hin]; [done|]. specialize (IH Hin). lia.
Qed.

Lemma first_pos_snoc_new (k : link) (l : list link) :
  k ∉ l → first_pos k (l ++ [k]) = length l.
Proof.
  induction l as [|k' l IH]; intros Hnin; simpl.
  - by rewrite decide_True.
  - apply not_elem_of_cons in Hnin as [Hne Hnin].
    rewrite decide_False by done. by rewrite IH.
Qed.

(** The table of [Counter] lists the bonds in the order in which they are
    first met. *)
Lemma Counter_keys_order (l : list link) (i j : nat) (k1 k2 : link) :
  (i < j)%nat → (Counter l).*1 !! i = Some k1 → (Counter l).*1 !! j = Some k2 →
  (first_pos k1 l < first_pos k2 l)%nat.
Proof.
  revert i j k1 k2. induction l as [|k l IH] using rev_ind;
    intros i j k1 k2 Hij H1 H2; [done|].
  pose proof (Counter_counts l) as Hc.
  rewrite Counter_snoc, counter_incr_keys in H1, H2.
  assert (Hkey : ∀ i' k', (Counter l).*1 !! i' = Some k' → k' ∈ l).
  { intros i' k' Hi'. apply (counts_of_key _ _ _ Hc).
    by eapply list_elem_of_lookup_2. }
  destruct (decide (k ∈ (Counter l).*1)) as [Hin|Hnin].
  - rewrite !first_pos_app_l by by eapply Hkey. by apply (IH i j).
  - assert (i < length (Counter l).*1)%nat as Hi.
    { apply lookup_lt_Some in H2. rewrite length_app in H2. simpl in H2. lia. }
    rewrite lookup_app_l in H1 by done.
    rewrite (first_pos_app_l k1) by by eapply Hkey.
    destruct (decide (j < length (Counter l).*1)%nat) as [Hj|Hj].
    + rewrite lookup_app_l in H2 by done.
      rewrite (first_pos_app_l k2) by by eapply Hkey. by apply (IH i j).
    + rewrite lookup_app_r in H2 by lia.
      destruct (j - length (Counter l).*1)%nat; [|done].
      injection H2 as <-.
      rewrite first_pos_snoc_new by by rewrite <- (counts_of_key _ _ _ Hc).
      apply first_pos_lt. by eapply Hkey.
Qed.

Lemma precedes_keys (c : list bond) (e1 e2 : bond) :
  precedes c e1 e2 →
  ∃ i j, (i < j)%nat ∧ c.*1 !! i = Some e1.1 ∧ c.*1 !! j = Some e2.1.
Proof.
  intros (i & j & Hij & H1 & H2). exists i, j. split; [done|].
  split; rewrite list_lookup_fmap;
    [exact (f_equal (fmap fst) H1) | exact (f_equal (fmap fst) H2)].
Qed.

(** C3, as the code has it: the list [Counter(links).most_common()] from
    which the connectivity is built is sorted by decreasing count, and among
    entries of equal count the bond met first while scanning the peers comes
    first; but the connectivity itself is the frozenset of the entries of
    that list, which is the same for every order of the entries. *)
Theorem most_common_then_frozenset (self : Atom) (in_atoms : list Atom)
    (in_row : list Z) :
  length in_atoms = length in_row →
  let links := bonded in_atoms in_row in
  let mc := most_common (Counter links) in
  (∀ i j e1 e2, (i < j)%nat → mc !! i = Some e1 → mc !! j = Some e2 →
      (e2.2 ≤ e1.2)%nat
      ∧ (e1.2 = e2.2 → (first_pos e1.1 links < first_pos e2.1 links)%nat))
  ∧ connectivity (receiver (set_connectivity self in_atoms in_row))
    = Some (list_to_set mc)
  ∧ (∀ l', l' ≡ₚ mc → (list_to_set l' : gset bond) = list_to_set mc).
Proof.
  intros Hlen links mc. repeat apply conj.
  - intros i j e1 e2 Hij H1 H2.
    pose proof (StronglySorted_lookup _ _ _ _ _ _
                  (most_common_sorted (Counter links)) Hij H1 H2) as [Hlt|[Heq Hp]].
    + split; lia.
    + split; [lia|]. intros _.
      apply precedes_keys in Hp as (i' & j' & Hij' & Hi' & Hj').
      by eapply Counter_keys_order.
  - by rewrite set_connectivity_call by lia.
  - intros l' Hp. by apply list_to_set_perm_L.
Qed.

Lemma most_common_then_frozenset_witness :
  let links := bonded [origin "O"; origin "C"; origin "O"; origin "N"] [2; 1; 2; 3] in
  let mc := most_common (Counter links) in
  mc = [("O", 2, 2%nat); ("C", 1, 1%nat); ("N", 3, 1%nat)]
  ∧ connectivity (receiver (set_connectivity (origin "H")
        [origin "O"; origin "C"; origin "O"; origin "N"] [2; 1; 2; 3]))
    = Some (list_to_set mc).
Proof.
  split; [reflexivity|].
  apply (most_common_then_frozenset (origin "H")
           [origin "O"; origin "C"; origin "O"; origin "N"] [2; 1; 2; 3]).
  reflexivity.
Defined.

(** C3 as stated fails: scanning a carbon then an oxygen, or the oxygen then
    the carbon, gives [most_common] lists in the two encounter orders, and
    yet [set_connectivity] leaves the very same connectivity and kind: the
    value it stores keeps no order of its entries. *)
Lemma connectivity_keeps_no_order :
  most_common (Counter (bonded [origin "C"; origin "O"] [1; 2]))
  = [("C", 1, 1%nat); ("O", 2, 1%nat)]
  ∧ most_common (Counter (bonded [origin "O"; origin "C"] [2; 1]))
    = [("O", 2, 1%nat); ("C", 1, 1%nat)]
  ∧ set_connectivity (origin "H") [origin "C"; origin "O"] [1; 2]
    = set_connectivity (origin "H") [origin "O"; origin "C"] [2; 1].
Proof.
  split; [reflexivity|]. split; [reflexivity|].
  vm_compute. reflexivity.
Qed.

(** ** More facts about binary64 *)


Lemma is_finite_spec (u : float) : is_finite u = SF_finite (Prim2SF u).
Proof.
  unfold is_finite, is_nan, is_infinity.
  rewrite !FloatAxioms.eqb_spec, abs_spec.
  change (Prim2SF infinity) with (S754_infinity false).
  destruct (Prim2SF u) as [s|s| |s m e]; try reflexivity.
  - by destruct s.
  - unfold SFeqb. rewrite SFcompare_finite_refl. simpl. by destruct s.
Qed.

Lemma binary_round_aux_opp (s : bool) (m e : Z) (l : location) :
  binary_round_aux prec emax (negb s) m e l
  = SFopp (binary_round_aux prec emax s m e l).
Proof.
  unfold binary_round_aux.
  destruct (shr_fexp prec emax m e l) as [mrs' e'].
  destruct (shr_fexp prec emax _ e' loc_Exact) as [mrs'' e''].
  destruct (shr_m mrs''); try reflexivity.
  by destruct (_ <=? _).
Qed.

Lemma binary_round_opp (s : bool) (m : positive) (e : Z) :
  binary_round prec emax (negb s) m e = SFopp (binary_round prec emax s m e).
Proof.
  unfold binary_round. destruct (shl_align _ _ _) as [mz ez].
  apply binary_round_aux_opp.
Qed.

Lemma binary_normalize_opp (m e : Z) :
  m ≠ 0 →
  binary_normalize prec emax (- m) e false
  = SFopp (binary_normalize prec emax m e false).
Proof.
  destruct m as [|p|p]; [done| |]; intros _; simpl.
  - apply (binary_round_opp false).
  - change false with (negb true) at 1. apply binary_round_opp.
Qed.


Lemma SFsub_swap (X Y : spec_float) :
  negated (SFsub prec emax X Y) (SFsub prec emax Y X).
Proof.
  destruct X as [s|s| |s m e], Y as [t|t| |t n f]; simpl;
    try (by left); try (right; by eauto);
    try (destruct s, t; by (left + (right; eauto))).
  rewrite (Z.min_comm f e).
  set (a := cond_Zopp s _). set (b := cond_Zopp t _).
  destruct (decide (a - b = 0)) as [E|E].
  - replace (b - a) with 0 by lia. rewrite E. right. simpl. eauto.
  - left. replace (b - a) with (- (a - b)) by lia. by apply binary_normalize_opp.
Qed.

Lemma SFmul_negated_self (X Y : spec_float) :
  negated X Y → SFmul prec emax Y Y = SFmul prec emax X X.
Proof.
  intros [->|(s & t & -> & ->)].
  - destruct X as [s|s| |s m e]; simpl; try reflexivity; by destruct s.
  - simpl. by destruct s, t.
Qed.

Lemma SF_finite_negated (X Y : spec_float) :
  negated X Y → SF_finite Y = SF_finite X.
Proof. intros [->|(s & t & -> & ->)]; [by destruct X | done]. Qed.

Lemma py_sq_sub_swap (u v : float) : py_sq (u - v) = py_sq (v - u).
Proof.
  pose proof (SFsub_swap (Prim2SF u) (Prim2SF v)) as H.
  fold (SF64sub (Prim2SF u) (Prim2SF v)) in H.
  fold (SF64sub (Prim2SF v) (Prim2SF u)) in H.
  rewrite <- !sub_spec in H.
  unfold py_sq. rewrite !is_finite_spec, (SF_finite_negated _ _ H).
  assert ((v - u) * (v - u) = (u - v) * (u - v))%float as ->; [|done].
  apply Prim2SF_inj. rewrite !mul_spec. by apply SFmul_negated_self.
Qed.

Lemma binary_round_aux_nonneg (m e : Z) (l : location) :
  SFltb (binary_round_aux prec emax false m e l) (S754_zero false) = false.
Proof.
  unfold binary_round_aux.
  destruct (shr_fexp prec emax m e l) as [mrs' e'].
  destruct (shr_fexp prec emax _ e' loc_Exact) as [mrs'' e''].
  destruct (shr_m mrs''); try reflexivity.
  by destruct (_ <=? _).
Qed.

Lemma sqrt_nonneg (u : float) : (sqrt u <? 0)%float = false.
Proof.
  rewrite ltb_spec, sqrt_spec. change (Prim2SF 0) with (S754_zero false).
  unfold SF64sqrt, SFsqrt.
  destruct (Prim2SF u) as [s|s| |s m e]; try reflexivity.
  - by destruct s.
  - destruct s; [done|].
    destruct (SFsqrt_core_binary prec emax (Z.pos m) e) as [[mz ez] lz].
    apply binary_round_aux_nonneg.
Qed.

Lemma sub_self_finite (u : float) : is_finite u = true → (u - u)%float = 0%float.
Proof.
  rewrite is_finite_spec. intros Hf. apply Prim2SF_inj. rewrite sub_spec.
  change (Prim2SF 0) with (S754_zero false). unfold SF64sub.
  destruct (Prim2SF u) as [s|s| |s m e]; try done.
  - by destruct s.
  - unfold SFsub. by rewrite Z.sub_diag.
Qed.

Lemma SFcompare_swap (X Y : spec_float) :
  SFcompare Y X = option_map CompOpp (SFcompare X Y).
Proof.
  destruct X as [s|s| |s m e], Y as [t|t| |t n f]; simpl;
    try reflexivity; try (by destruct s); try (by destruct t);
    try (by destruct s, t).
  fold (Pos.compare m n) (Pos.compare n m).
  rewrite (Z.compare_antisym e f), (Pos.compare_antisym m n).
  destruct s, t; try reflexivity; destruct (e ?= f); simpl; try reflexivity;
    by destruct (m ?= n)%positive.
Qed.

Lemma SFcompare_None (X Y : spec_float) :
  SFcompare X Y = None → X = S754_nan ∨ Y = S754_nan.
Proof.
  destruct X as [s|s| |s m e], Y as [t|t| |t n f]; simpl; try discriminate;
    by (left + right).
Qed.

(** Two comparable values neither of which is below the other are equal. *)
Lemma not_ltb_eqb (u v : float) :
  (u =? u)%float = true → (v =? v)%float = true →
  (u <? v)%float = false → (v <? u)%float = false → (u =? v)%float = true.
Proof.
  rewrite !FloatAxioms.eqb_spec, !ltb_spec. unfold SFeqb, SFltb.
  rewrite (SFcompare_swap (Prim2SF u) (Prim2SF v)).
  intros Hu Hv. destruct (SFcompare (Prim2SF u) (Prim2SF v)) as [[]|] eqn:E;
    try done.
  apply SFcompare_None in E as [E|E]; rewrite E in *; done.
Qed.

(** ** More on distances *)

(** X1: the distance of atom [a] to the position of atom [b] is the
    distance of [b] to the position of [a], bit for bit and exceptions
    included: swapping the operands of each subtraction only changes a sign
    that the square forgets. *)
Theorem dist_symmetric (a b : Atom) :
  dist a (x b) (y b) (z b) = dist b (x a) (y a) (z a).
Proof.
  unfold dist.
  by rewrite (py_sq_sub_swap (x a)), (py_sq_sub_swap (y a)),
    (py_sq_sub_swap (z a)).
Qed.

Lemma py_sq_raise (v : float) (e : exn) : py_sq v = Raise e → e = OverflowError.
Proof. unfold py_sq. destruct (_ && _); by intros [= <-]. Qed.

Lemma dist_raise (self : Atom) (x1 y1 z1 : float) (e : exn) :
  dist self x1 y1 z1 = Raise e → e = OverflowError.
Proof.
  unfold dist.
  destruct (py_sq (x self - x1)) as [dx|e1] eqn:E1; [|intros [= <-]; by eapply py_sq_raise].
  destruct (py_sq (y self - y1)) as [dy|e2] eqn:E2; [|intros [= <-]; by eapply py_sq_raise].
  destruct (py_sq (z self - z1)) as [dz|e3] eqn:E3; [|intros [= <-]; by eapply py_sq_raise].
  done.
Qed.

Lemma dist_nonneg (self : Atom) (x1 y1 z1 r : float) :
  dist self x1 y1 z1 = Ok r → (r <? 0)%float = false.
Proof.
  intros (dx & dy & dz & _ & _ & _ & ->)%dist_Ok_inv. apply sqrt_nonneg.
Qed.

(** X2: [dist] either returns a distance that is not negative (it may be
    [+inf] or NaN), or raises [OverflowError]; it raises nothing else. *)
Theorem dist_nonneg_or_overflow (self : Atom) (x1 y1 z1 : float) :
  match dist self x1 y1 z1 with
  | Ok r => (r <? 0)%float = false
  | Raise e => e = OverflowError
  end.
Proof.
  destruct (dist self x1 y1 z1) as [r|e] eqn:E.
  - by eapply dist_nonneg.
  - by eapply dist_raise.
Qed.

(** X3: an atom whose coordinates are finite is at distance exactly 0.0 of
    its own position. *)
Theorem dist_self (a : Atom) :
  is_finite (x a) = true → is_finite (y a) = true → is_finite (z a) = true →
  dist a (x a) (y a) (z a) = Ok 0%float.
Proof.
  intros Hx Hy Hz. unfold dist.
  by rewrite (sub_self_finite _ Hx), (sub_self_finite _ Hy), (sub_self_finite _ Hz).
Qed.

Lemma dist_self_witness :
  dist (mkAtom "C" 1.5 (-0) 1e300 0.1 1 None None) 1.5 (-0) 1e300 = Ok 0%float.
Proof.
  apply (dist_self (mkAtom "C" 1.5 (-0) 1e300 0.1 1 None None)); reflexivity.
Defined.

Lemma mapM_dist_lookup (self : Atom) (ps : list vec) (rs : list float)
    (k : nat) (p : vec) (r : float) :
  mapM (dist_to self) ps = Ok rs → ps !! k = Some p → rs !! k = Some r →
  dist_to self p = Ok r.
Proof.
  revert rs k. induction ps as [|p' ps IH]; intros rs k; [done|].
  rewrite mapM_dist_cons.
  destruct (dist_to self p') as [r'|e] eqn:E; cbn [mbind result_bind]; [|done].
  destruct (mapM (dist_to self) ps) as [rs'|e]; cbn [mbind result_bind]; [|done].
  intros [= <-]. destruct k as [|k]; simpl.
  - by intros [= <-] [= <-].
  - by apply IH.
Qed.


(** What a normal return of [dist_lat] tells. *)
Lemma dist_lat_Ok_inv (self : Atom) (x1 y1 z1 : float) (aVec bVec cVec : vec)
    (rMin x3 y3 z3 : float) :
  dist_lat self x1 y1 z1 aVec bVec cVec = Ok (rMin, x3, y3, z3) →
  ∃ rs k,
    mapM (dist_to self) (images x1 y1 z1 aVec bVec cVec) = Ok rs
    ∧ images x1 y1 z1 aVec bVec cVec !! k = Some (x3, y3, z3)
    ∧ first_min rs k rMin
    ∧ (rMin <? float_inf)%float = true.
Proof.
  intros Hcall.
  destruct (mapM (dist_to self) (images x1 y1 z1 aVec bVec cVec)) as [rs|e] eqn:Hrs.
  2: { by rewrite (dist_lat_raise _ _ _ _ _ _ _ _ Hrs) in Hcall. }
  pose proof (mapM_dist_length _ _ _ Hrs) as Hlen.
  rewrite dist_lat_scan, (for_each_scan _ _ _ _ Hrs) in Hcall.
  cbn [mbind result_bind] in Hcall.
  pose proof (scanned_fold (zip rs (images x1 y1 z1 aVec bVec cVec)) []
                (float_inf, None) scanned_start) as H.
  rewrite app_nil_l in H.
  destruct (fold_left pick _ _) as [m img]. destruct H as [Hlow Himg].
  cbn [fst snd] in *.
  destruct img as [[[x3' y3'] z3']|]; [|done].
  injection Hcall as -> -> -> ->.
  destruct Himg as (Hinf & k & Hk & Hfirst).
  apply lookup_zip_with_Some in Hk as (m' & p' & [= <- <-] & Hm & Hp).
  exists rs, k. split; [done|]. split; [done|]. split; [|done].
  split; [done|]. split.
  - intros r' [j Hj]%list_elem_of_lookup_1.
    destruct (zip_lookup_l _ _ _ _ Hlen Hj) as [p Hp'].
    exact (Hlow _ (list_elem_of_lookup_2 _ _ _ Hp')).
  - intros j r' Hj Hr'. destruct (zip_lookup_l _ _ _ _ Hlen Hr') as [p Hp'].
    exact (Hfirst j _ Hj Hp').
Qed.


Lemma dist_lat_Ok_dist (self : Atom) (x1 y1 z1 : float) (aVec bVec cVec : vec)
    (rMin x3 y3 z3 : float) :
  dist_lat self x1 y1 z1 aVec bVec cVec = Ok (rMin, x3, y3, z3) →
  dist self x3 y3 z3 = Ok rMin.
Proof.
  intros (rs & k & Hrs & Hk & (Hm & _) & _)%dist_lat_Ok_inv.
  exact (mapM_dist_lookup _ _ _ _ _ _ Hrs Hk Hm).
Qed.

(** X5: when [dist_lat] returns, the image it returns is one of the 27
    translated points, the distance it returns is [dist] of that image, and
    that distance is neither negative nor [+inf] nor NaN. *)
Theorem dist_lat_image (self : Atom) (x1 y1 z1 : float) (aVec bVec cVec : vec)
    (rMin x3 y3 z3 : float) :
  dist_lat self x1 y1 z1 aVec bVec cVec = Ok (rMin, x3, y3, z3) →
  (x3, y3, z3) ∈ images x1 y1 z1 aVec bVec cVec
  ∧ dist self x3 y3 z3 = Ok rMin
  ∧ (rMin <? 0)%float = false ∧ (rMin <? float_inf)%float = true.
Proof.
  intros Hcall. pose proof (dist_lat_Ok_dist _ _ _ _ _ _ _ _ _ _ _ Hcall) as Hd.
  apply dist_lat_Ok_inv in Hcall as (rs & k & Hrs & Hk & _ & Hinf).
  split; [by eapply list_elem_of_lookup_2|]. split; [done|]. split; [|done].
  by eapply dist_nonneg.
Qed.

Lemma dist_lat_image_witness :
  (0.5, 0, 0)%float ∈ images 0.5 0 0 unit_a unit_b unit_c
  ∧ dist (origin "H") 0.5 0 0 = Ok 0.5%float
  ∧ (0.5 <? 0)%float = false ∧ (0.5 <? float_inf)%float = true.
Proof.
  apply (dist_lat_image (origin "H") 0.5 0 0 unit_a unit_b unit_c). reflexivity.
Defined.

Lemma nVec_zero : zero_vec nVec.
Proof. by repeat split; left. Qed.

Lemma images_untranslated (x1 y1 z1 : float) (aVec bVec cVec : vec) :
  shift x1 y1 z1 nVec nVec nVec ∈ images x1 y1 z1 aVec bVec cVec.
Proof.
  unfold images. apply list_elem_of_bind. exists nVec. split; [|by right; left].
  apply list_elem_of_bind. exists nVec. split; [|by right; left].
  apply list_elem_of_bind. exists nVec. split; [by left | by right; left].
Qed.

(** The untranslated target is among the candidates, at the distance that
    [dist] gives. *)
Lemma mapM_dist_direct (self : Atom) (x1 y1 z1 : float) (aVec bVec cVec : vec)
    (rs : list float) :
  mapM (dist_to self) (images x1 y1 z1 aVec bVec cVec) = Ok rs →
  ∃ r, dist self x1 y1 z1 = Ok r ∧ r ∈ rs.
Proof.
  intros Hrs.
  pose proof (images_untranslated x1 y1 z1 aVec bVec cVec) as Hin.
  apply list_elem_of_lookup_1 in Hin as [j Hj].
  destruct (lookup_lt_is_Some_2 rs j) as [r Hr].
  { rewrite (mapM_dist_length _ _ _ Hrs). by eapply lookup_lt_Some. }
  pose proof (mapM_dist_lookup _ _ _ _ _ _ Hrs Hj Hr) as Hd.
  destruct (shift_zero_same x1 y1 z1 nVec nVec nVec nVec_zero nVec_zero nVec_zero)
    as (Sx & Sy & Sz).
  unfold dist_to in Hd. rewrite (dist_same self x1 y1 z1) in Hd by done.
  exists r. split; [done|]. by eapply list_elem_of_lookup_2.
Qed.

(** X6: when [dist_lat] returns, [dist] of the same target returns as well,
    and it is never strictly below the periodic distance. *)
Theorem dist_lat_le_dist (self : Atom) (x1 y1 z1 : float) (aVec bVec cVec : vec)
    (rMin x3 y3 z3 : float) :
  dist_lat self x1 y1 z1 aVec bVec cVec = Ok (rMin, x3, y3, z3) →
  ∃ r, dist self x1 y1 z1 = Ok r ∧ (r <? rMin)%float = false.
Proof.
  intros (rs & k & Hrs & _ & (_ & Hlow & _) & _)%dist_lat_Ok_inv.
  destruct (mapM_dist_direct _ _ _ _ _ _ _ _ Hrs) as (r & Hr & Hin).
  exists r. split; [done|]. by apply Hlow.
Qed.

Lemma dist_lat_le_dist_witness :
  ∃ r, dist (origin "H") 0.9 0 0 = Ok r
       ∧ (r <? 0.099999999999999978)%float = false.
Proof.
  apply (dist_lat_le_dist (origin "H") 0.9 0 0 unit_a unit_b unit_c
           0.099999999999999978 (-0.099999999999999978) 0 0).
  reflexivity.
Defined.

(** X7: when [dist_lat] returns for the atom's own finite position, the
    periodic distance equals 0, whatever the lattice vectors. *)
Theorem dist_lat_self (a : Atom) (aVec bVec cVec : vec) (rMin x3 y3 z3 : float) :
  is_finite (x a) = true → is_finite (y a) = true → is_finite (z a) = true →
  dist_lat a (x a) (y a) (z a) aVec bVec cVec = Ok (rMin, x3, y3, z3) →
  (rMin =? 0)%float = true.
Proof.
  intros Hx Hy Hz Hcall.
  pose proof (dist_nonneg _ _ _ _ _ (dist_lat_Ok_dist _ _ _ _ _ _ _ _ _ _ _ Hcall))
    as Hn.
  apply dist_lat_Ok_inv in Hcall as (rs & k & Hrs & _ & (_ & Hlow & _) & Hinf).
  destruct (mapM_dist_direct _ _ _ _ _ _ _ _ Hrs) as (r & Hr & Hin).
  apply Hlow in Hin as Hle.
  unfold dist in Hr.
  rewrite (sub_self_finite _ Hx), (sub_self_finite _ Hy),
    (sub_self_finite _ Hz) in Hr.
  injection Hr as <-.
  apply not_ltb_eqb; [by eapply ltb_eqb_refl | done | done | done].
Qed.

Lemma dist_lat_self_witness :
  dist_lat (mkAtom "C" 0.25 0.5 3 0 1 None None) 0.25 0.5 3 unit_a unit_b unit_c
  = Ok (0, 0.25, 0.5, 3)%float
  ∧ (0 =? 0)%float = true.
Proof.
  split; [reflexivity|].
  apply (dist_lat_self (mkAtom "C" 0.25 0.5 3 0 1 None None) unit_a unit_b
           unit_c 0 0.25 0.5 3); reflexivity.
Defined.

(** ** More on equality *)

Lemma ieee_eq_sym (u v : float) : ieee_eq u v → ieee_eq v u.
Proof.
  intros [[-> Hn]|[Hu Hv]]; [by left | by right].
Qed.

Lemma ieee_eq_signed_zero (u v : float) : ieee_eq u v → signed_zero u → signed_zero v.
Proof. intros [[-> _]|[_ Hv]] Hu; done. Qed.

Lemma ieee_eq_trans (u v w : float) : ieee_eq u v → ieee_eq v w → ieee_eq u w.
Proof.
  intros Huv Hvw. destruct Huv as [[-> Hn]|[Hu Hv]]; [done|].
  right. split; [done|]. by eapply ieee_eq_signed_zero.
Qed.

Lemma nan_not_signed_zero : ¬ signed_zero nan.
Proof.
  intros [E|E]; pose proof (f_equal (λ v, (v =? v)%float) E) as F;
    vm_compute in F; discriminate F.
Qed.

Lemma ieee_eq_refl (u : float) : ieee_eq u u ↔ u ≠ nan.
Proof.
  split.
  - intros [[_ Hn]|[Hu _]]; [done|]. intros ->. by apply nan_not_signed_zero.
  - intros Hn. by left.
Qed.

Lemma eq_ieee (a b : Atom) :
  __eq__ a b = true ↔
    lower (elem a) = lower (elem b) ∧ ieee_eq (x a) (x b)
    ∧ ieee_eq (y a) (y b) ∧ ieee_eq (z a) (z b) ∧ ieee_eq (q a) (q b).
Proof. rewrite eq_unfold, !eqb_ieee_eq. tauto. Qed.

(** X8: [__eq__] is symmetric. *)
Theorem eq_symmetric (a b : Atom) : __eq__ a b = __eq__ b a.
Proof.
  apply eq_true_iff_eq. rewrite !eq_ieee.
  split; intros (He & Hx & Hy & Hz & Hq); repeat split;
    done || by apply ieee_eq_sym.
Qed.

(** X9: [__eq__] is transitive. *)
Theorem eq_transitive (a b c : Atom) :
  __eq__ a b = true → __eq__ b c = true → __eq__ a c = true.
Proof.
  rewrite !eq_ieee. intros (He & Hx & Hy & Hz & Hq) (He' & Hx' & Hy' & Hz' & Hq').
  split; [congruence|]. repeat split; by eapply ieee_eq_trans.
Qed.

Lemma eq_transitive_witness :
  __eq__ (mkAtom "h" 0 1.5 2 0.1 1 None None)
         (mkAtom "H" 0 1.5 2 0.1 1 (Some ∅) (Some ("H"%string, ∅))) = true.
Proof.
  apply (eq_transitive _ (mkAtom "H" (-0) 1.5 2 0.1 1 None None)); reflexivity.
Defined.

(** X10: an atom is equal to itself exactly when none of its coordinates
    and charge is NaN. *)
Theorem eq_reflexive_iff (a : Atom) :
  __eq__ a a = true ↔ x a ≠ nan ∧ y a ≠ nan ∧ z a ≠ nan ∧ q a ≠ nan.
Proof. rewrite eq_ieee, !ieee_eq_refl. tauto. Qed.

(** ** More on translation *)

(** X11: for an atom without NaN among its coordinates and charge,
    translating by a vector of zeros (of any signs) gives an atom equal to
    the original, in place with [translate] and as a copy with
    [translated]. *)
Theorem translate_by_zero parse (a : Atom) (dx dy dz : float) :
  signed_zero dx → signed_zero dy → signed_zero dz →
  __eq__ a a = true →
  __eq__ (receiver (translate a dx dy dz)) a = true
  ∧ ∃ b, returned (translated parse a dx dy dz) = Ok b ∧ __eq__ b a = true.
Proof.
  intros Hx Hy Hz (_ & Nx & Ny & Nz & Nq)%eq_ieee.
  apply ieee_eq_refl in Nx, Ny, Nz, Nq.
  assert (∀ b, elem b = elem a → q b = q a → x b = (x a + dx)%float →
               y b = (y a + dy)%float → z b = (z a + dz)%float →
               __eq__ b a = true) as H.
  { intros b He Hq Ex Ey Ez. apply eq_unfold. rewrite He, Hq, Ex, Ey, Ez.
    split; [done|].
    repeat split; try (apply same_value_eqb; [by apply add_zero_same|done]).
    apply eqb_ieee_eq. by left. }
  split; [by apply H|].
  rewrite translated_call. eexists. split; [reflexivity|]. by apply H.
Qed.

Lemma translate_by_zero_witness :
  __eq__ (receiver (translate (mkAtom "O" (-0) 1.5 (-2) 0.1 1 None None) 0 (-0) 0))
         (mkAtom "O" (-0) 1.5 (-2) 0.1 1 None None) = true
  ∧ ∃ b, returned (translated example_literals
                     (mkAtom "O" (-0) 1.5 (-2) 0.1 1 None None) 0 (-0) 0) = Ok b
         ∧ __eq__ b (mkAtom "O" (-0) 1.5 (-2) 0.1 1 None None) = true.
Proof.
  apply translate_by_zero; try reflexivity; by (left + right).
Defined.

(** ** More on the element tables *)

Lemma electrons_call (a : Atom) :
  electrons a
  = Call a []
      (Ok (if String.eqb (lower (elem a)) "h" then (1, 1)
           else if String.eqb (lower (elem a)) "c" then (4, 6)
           else if String.eqb (lower (elem a)) "n" then (5, 7)
           else if String.eqb (lower (elem a)) "o" then (6, 8)
           else (0, 0))).
Proof. unfold electrons. by repeat (case (String.eqb _ _)). Qed.

(** X12: [electrons] leaves the receiver as it is and never raises; its
    result depends on the element only through its lower-case form; it
    returns [(valence, total)] with [0 <= valence <= total <= 8], and the
    total is 0 exactly when the lower-case element is none of h, c, n, o. *)
Theorem electrons_lookup (a : Atom) :
  receiver (electrons a) = a
  ∧ (∀ b, lower (elem b) = lower (elem a) →
          returned (electrons b) = returned (electrons a))
  ∧ ∃ valence total,
      returned (electrons a) = Ok (valence, total)
      ∧ 0 ≤ valence ≤ total ∧ total ≤ 8
      ∧ (total = 0 ↔ lower (elem a) ∉ ["h"; "c"; "n"; "o"]%string).
Proof.
  rewrite electrons_call. cbn [receiver returned]. split; [done|]. split.
  - intros b Hb. by rewrite electrons_call, Hb.
  - destruct (String.eqb_spec (lower (elem a)) "h") as [->|Hh].
    { exists 1, 1. repeat split; try lia; try done. intros Hn. destruct Hn. by left. }
    destruct (String.eqb_spec (lower (elem a)) "c") as [->|Hc].
    { exists 4, 6. repeat split; try lia; try done. intros Hn. destruct Hn.
      by right; left. }
    destruct (String.eqb_spec (lower (elem a)) "n") as [->|Hn].
    { exists 5, 7. repeat split; try lia; try done. intros Hn'. destruct Hn'.
      by right; right; left. }
    destruct (String.eqb_spec (lower (elem a)) "o") as [->|Ho].
    { exists 6, 8. repeat split; try lia; try done. intros Hn'. destruct Hn'.
      by right; right; right; left. }
    exists 0, 0. repeat split; try lia.
    intros _ Hin. repeat (apply elem_of_cons in Hin as [?|Hin]; [done|]).
    by apply elem_of_nil in Hin.
Qed.

Lemma num_to_elem_call (a : Atom) (n : Z) :
  num_to_elem a n
  = Call (if n =? 8 then set_elem "O" a
          else if n =? 7 then set_elem "N" a
          else if n =? 6 then set_elem "C" a
          else if n =? 1 then set_elem "H" a
          else a) [] (Ok tt).
Proof.
  unfold num_to_elem, periodic. cbn [fold_left fst snd].
  destruct (Z.eqb_spec n 1) as [->|?]; [done|].
  destruct (Z.eqb_spec n 6) as [->|?]; [done|].
  destruct (Z.eqb_spec n 7) as [->|?]; [done|].
  by destruct (Z.eqb_spec n 8) as [->|?].
Qed.

(** X13: [num_to_elem] never raises; for a number of the table it changes
    the element to the table's symbol and nothing else, and for any other
    number it leaves the atom as it is. *)
Theorem num_to_elem_lookup (a : Atom) (n : Z) :
  returned (num_to_elem a n) = Ok tt
  ∧ (∀ sym, (sym, n) ∈ periodic → receiver (num_to_elem a n) = set_elem sym a)
  ∧ ((∀ sym, (sym, n) ∉ periodic) → receiver (num_to_elem a n) = a).
Proof.
  rewrite num_to_elem_call. cbn [receiver returned]. split; [done|]. split.
  - intros sym Hin. unfold periodic in Hin.
    repeat (apply elem_of_cons in Hin as [[= -> ->]|Hin]; [done|]).
    by apply elem_of_nil in Hin.
  - intros Hno.
    destruct (Z.eqb_spec n 8) as [->|?];
      [destruct (Hno "O"%string); unfold periodic; set_solver|].
    destruct (Z.eqb_spec n 7) as [->|?];
      [destruct (Hno "N"%string); unfold periodic; set_solver|].
    destruct (Z.eqb_spec n 6) as [->|?];
      [destruct (Hno "C"%string); unfold periodic; set_solver|].
    destruct (Z.eqb_spec n 1) as [->|?];
      [destruct (Hno "H"%string); unfold periodic; set_solver|].
    done.
Qed.

(** X14: the two tables agree: after [num_to_elem] with a number of the
    table, the element is the table's symbol and [electrons] returns that
    number as the total electron count. *)
Theorem num_to_elem_then_electrons (a : Atom) (sym : string) (n : Z) :
  (sym, n) ∈ periodic →
  elem (receiver (num_to_elem a n)) = sym
  ∧ ∃ valence, returned (electrons (receiver (num_to_elem a n))) = Ok (valence, n).
Proof.
  intros Hin. rewrite num_to_elem_call. cbn [receiver]. unfold periodic in Hin.
  repeat (apply elem_of_cons in Hin as [[= -> ->]|Hin];
          [split; [done|]; rewrite electrons_call; by eexists|]).
  by apply elem_of_nil in Hin.
Qed.

Lemma num_to_elem_then_electrons_witness :
  elem (receiver (num_to_elem (origin "H") 7)) = "N"%string
  ∧ ∃ valence,
      returned (electrons (receiver (num_to_elem (origin "H") 7))) = Ok (valence, 7).
Proof.
  apply num_to_elem_then_electrons. unfold periodic. by right; right; left.
Defined.

(** ** More on the constructor *)

Lemma py_float_raise parse (o : pyobj) (e : exn) :
  py_float parse o = Raise e →
  e = ValueError ∨ e = TypeError ∨ e = OverflowError.
Proof.
  destruct o as [f|n|s|]; simpl; try done.
  - unfold int_to_float. destruct (binary_normalize _ _ _ _ _); try done.
    intros [= <-]. auto.
  - destruct (parse s); [done|]. intros [= <-]. auto.
  - intros [= <-]. auto.
Qed.

(** X15: the constructor never lets a [ValueError] escape: what it raises is
    [TypeError] or [OverflowError], and then it has printed nothing.  When it
    returns, the atom has the element it was given and no connectivity or
    kind, and at most the one diagnostic line was printed. *)
Theorem init_outcomes parse (elemIn : string) (xIn yIn zIn qIn n : pyobj) :
  match __init__ parse elemIn xIn yIn zIn qIn n with
  | (out, Ok a) =>
      elem a = elemIn ∧ connectivity a = None ∧ kind a = None
      ∧ (out = [] ∨ out = [diagnostic])
  | (out, Raise e) => out = [] ∧ (e = TypeError ∨ e = OverflowError)
  end.
Proof.
  unfold __init__, assign_float.
  destruct (py_float parse xIn) as [fx|ex] eqn:Ex.
  2: { apply py_float_raise in Ex as [->|[->| ->]]; simpl; auto. }
  destruct (py_float parse yIn) as [fy|ey] eqn:Ey.
  2: { apply py_float_raise in Ey as [->|[->| ->]]; simpl; auto. }
  destruct (py_float parse zIn) as [fz|ez] eqn:Ez.
  2: { apply py_float_raise in Ez as [->|[->| ->]]; simpl; auto. }
  destruct (py_float parse qIn) as [fq|eq] eqn:Eq.
  2: { apply py_float_raise in Eq as [->|[->| ->]]; simpl; auto. }
  simpl. auto.
Qed.


(** ** More on connectivity *)

Lemma link_step_out (in_atoms : list Atom) (in_row : list Z) (acc : list link)
    (i : nat) (a : Atom) :
  in_row !! i = None → link_step in_atoms in_row acc (i, a) = Raise IndexError.
Proof. intros Hi. unfold link_step. by rewrite Hi. Qed.

Lemma collect_links_from_short (in_atoms : list Atom) (in_row : list Z) :
  ∀ (sa : list Atom) (sr : list Z) (k : nat) (acc : list link),
    (∀ i, sa !! i = in_atoms !! (k + i)%nat) →
    (∀ i, sr !! i = in_row !! (k + i)%nat) →
    (length sr < length sa)%nat →
    for_each (link_step in_atoms in_row) (imap (λ i a, ((k + i)%nat, a)) sa) acc
    = Raise IndexError.
Proof.
  induction sa as [|a sa IH]; intros sr k acc Ha Hr Hlen; [simpl in Hlen; lia|].
  rewrite imap_cons. cbn [for_each]. destruct sr as [|b sr].
  - rewrite link_step_out; [done|]. by rewrite <- (Hr 0%nat).
  - rewrite (link_step_at in_atoms in_row acc (k + 0) a a b)
      by (by rewrite <- ?(Hr 0%nat), <- ?(Ha 0%nat)).
    cbn [mbind result_bind].
    rewrite (imap_ext _ (λ i a0, ((S k + i)%nat, a0))).
    + apply (IH sr).
      * intros i. specialize (Ha (S i)). by rewrite Nat.add_succ_r in Ha.
      * intros i. specialize (Hr (S i)). by rewrite Nat.add_succ_r in Hr.
      * simpl in Hlen. lia.
    + intros i a0 _. simpl. f_equal. lia.
Qed.

(** X16: with a row shorter than the peer list, [set_connectivity] raises
    [IndexError] and leaves the receiver as it was, whatever the entries
    read before the end of the row. *)
Theorem set_connectivity_short_row (self : Atom) (in_atoms : list Atom)
    (in_row : list Z) :
  (length in_row < length in_atoms)%nat →
  set_connectivity self in_atoms in_row = Call self [] (Raise IndexError).
Proof.
  intros Hlen. unfold set_connectivity, collect_links.
  rewrite (imap_ext _ (λ i a, ((0 + i)%nat, a))) by done.
  by rewrite (collect_links_from_short in_atoms in_row in_atoms in_row).
Qed.

Lemma set_connectivity_short_row_witness :
  set_connectivity (origin "H") [origin "C"; origin "O"; origin "C"] [1; 2]
  = Call (origin "H") [] (Raise IndexError).
Proof. apply set_connectivity_short_row. simpl. lia. Defined.

(** X17: row entries past the last peer are not read: appending entries
    to a row as long as the peer list changes nothing. *)
Theorem set_connectivity_long_row (self : Atom) (in_atoms : list Atom)
    (in_row extra : list Z) :
  length in_atoms = length in_row →
  set_connectivity self in_atoms (in_row ++ extra)
  = set_connectivity self in_atoms in_row.
Proof.
  intros Hlen. rewrite !set_connectivity_call by (rewrite ?length_app; lia).
  cbv zeta. unfold bonded.
  rewrite <- (zip_with_take_r _ _ (in_row ++ extra)), length_fmap, Hlen.
  by rewrite take_app_length.
Qed.

Lemma set_connectivity_long_row_witness :
  set_connectivity (origin "H") [origin "C"; origin "O"] ([1; 2] ++ [3; 0; 1])
  = set_connectivity (origin "H") [origin "C"; origin "O"] [1; 2].
Proof. apply set_connectivity_long_row. reflexivity. Defined.

Lemma multiplicity_count_occ (k : link) (l : list link) :
  multiplicity k l = count_occ (decide_rel (=)) l k.
Proof.
  unfold multiplicity. induction l as [|k' l IH]; [done|].
  rewrite filter_cons. simpl.
  destruct (decide_rel eq k' k) as [->|Hne].
  - rewrite decide_True by done. simpl. by rewrite IH.
  - by rewrite decide_False.
Qed.

Lemma frozenset_inj (l1 l2 : list link) :
  (list_to_set (most_common (Counter l1)) : gset bond)
  = list_to_set (most_common (Counter l2)) →
  l1 ≡ₚ l2.
Proof.
  intros Heq.
  assert (∀ l l' : list link,
            (list_to_set (most_common (Counter l)) : gset bond)
            = list_to_set (most_common (Counter l')) →
            ∀ k, k ∈ l → k ∈ l' ∧ multiplicity k l = multiplicity k l') as Hdir.
  { intros l l' E k Hk.
    assert ((k, multiplicity k l)
            ∈ (list_to_set (most_common (Counter l)) : gset bond)) as Hin
      by by apply elem_of_frozenset.
    rewrite E in Hin. by apply elem_of_frozenset in Hin. }
  apply (Permutation_count_occ (decide_rel (=))). intros k.
  rewrite <- !multiplicity_count_occ.
  destruct (decide (k ∈ l1)) as [H1|H1].
  - by apply (Hdir l1 l2).
  - destruct (decide (k ∈ l2)) as [H2|H2].
    + destruct H1. by apply (Hdir l2 l1).
    + by rewrite !multiplicity_zero.
Qed.

(** X18: with rows as long as the peer lists, two atoms are given the same
    kind exactly when they have the same element and their bonds, the pairs
    (peer element, nonzero row entry), are the same up to order. *)
Theorem kind_classifies (a b : Atom) (atoms_a atoms_b : list Atom)
    (row_a row_b : list Z) :
  length atoms_a = length row_a → length atoms_b = length row_b →
  kind (receiver (set_connectivity a atoms_a row_a))
  = kind (receiver (set_connectivity b atoms_b row_b))
  ↔ elem a = elem b ∧ bonded atoms_a row_a ≡ₚ bonded atoms_b row_b.
Proof.
  intros Ha Hb. rewrite !set_connectivity_call by lia. cbn [receiver kind].
  split.
  - intros [= He Hc]. split; [done|]. by apply frozenset_inj.
  - intros [-> Hp]. by rewrite (frozenset_perm _ _ Hp).
Qed.

Lemma kind_classifies_witness :
  kind (receiver (set_connectivity (origin "N")
                    [origin "C"; origin "H"; origin "O"] [1; 0; 2]))
  = kind (receiver (set_connectivity (origin "N")
                      [origin "O"; origin "C"] [2; 1]))
  ↔ elem (origin "N") = elem (origin "N")
    ∧ bonded [origin "C"; origin "H"; origin "O"] [1; 0; 2]
      ≡ₚ bonded [origin "O"; origin "C"] [2; 1].
Proof. apply kind_classifies; reflexivity. Defined.

Lemma counter_incr_sum (k : link) (c : list bond) :
  sum_list_with snd (counter_incr k c) = S (sum_list_with snd c).
Proof.
  induction c as [|[k' n] c IH]; [done|]. cbn [counter_incr].
  destruct (decide (k = k')); cbn [sum_list_with snd]; rewrite ?IH; lia.
Qed.

Lemma Counter_sum (l : list link) : sum_list_with snd (Counter l) = length l.
Proof.
  induction l as [|k l IH] using rev_ind; [done|].
  rewrite Counter_snoc, counter_incr_sum, IH, length_app. simpl. lia.
Qed.

Lemma bonded_length (in_atoms : list Atom) (in_row : list Z) :
  length in_atoms = length in_row →
  length (bonded in_atoms in_row) = length (filter (λ b, b ≠ 0) in_row).
Proof.
  revert in_row. induction in_atoms as [|a l IH]; intros [|b row] Hlen;
    try done.
  rewrite bonded_cons, filter_cons. injection Hlen as Hlen.
  destruct (Z.eqb_spec b 0) as [->|Hb]; case_decide; try done.
  - by apply IH.
  - simpl. f_equal. by apply IH.
Qed.

(** X19: with a row as long as the peer list, the amounts of the entries of
    the connectivity add up to the number of nonzero row entries. *)
Theorem connectivity_total (self : Atom) (in_atoms : list Atom) (in_row : list Z) :
  length in_atoms = length in_row →
  ∃ conn, connectivity (receiver (set_connectivity self in_atoms in_row)) = Some conn
          ∧ total_amount conn = length (filter (λ b, b ≠ 0) in_row).
Proof.
  intros Hlen. rewrite set_connectivity_call by lia. cbn [receiver connectivity].
  eexists. split; [reflexivity|]. unfold total_amount.
  rewrite elements_list_to_set.
  - by rewrite most_common_perm, Counter_sum, bonded_length.
  - rewrite most_common_perm. apply (NoDup_fmap_1 fst).
    apply (Counter_counts (bonded in_atoms in_row)).
Qed.

Lemma connectivity_total_witness :
  ∃ conn,
    connectivity (receiver (set_connectivity (origin "N")
                    [origin "C"; origin "H"; origin "O"; origin "C"] [1; 0; 2; 1]))
    = Some conn
    ∧ total_amount conn = length (filter (λ b, b ≠ 0) [1; 0; 2; 1]).
Proof. apply connectivity_total. reflexivity. Defined.

(** X20: with a row as long as the peer list, the connectivity is the empty
    set exactly when every row entry is zero. *)
Theorem connectivity_empty (self : Atom) (in_atoms : list Atom) (in_row : list Z) :
  length in_atoms = length in_row →
  connectivity (receiver (set_connectivity self in_atoms in_row)) = Some ∅
  ↔ Forall (λ b, b = 0) in_row.
Proof.
  intros Hlen. rewrite set_connectivity_call by lia. cbn [receiver connectivity].
  assert (bonded in_atoms in_row = [] ↔ Forall (λ b, b = 0) in_row) as <-.
  { rewrite <- length_zero_iff_nil, bonded_length by done.
    rewrite length_zero_iff_nil. split.
    - intros Hnil. apply Forall_forall. intros b Hb.
      destruct (decide (b = 0)) as [|Hne]; [done|].
      assert (b ∈ filter (λ b, b ≠ 0) in_row) as Hin by by apply list_elem_of_filter.
      rewrite Hnil in Hin. by apply elem_of_nil in Hin.
    - intros Hall. clear Hlen. induction Hall as [|b row -> _ IH]; [done|].
      rewrite filter_cons. case_decide; [congruence | exact IH]. }
  split.
  - intros [= Hc]. destruct (bonded in_atoms in_row) as [|k l] eqn:E; [done|].
    assert ((k, multiplicity k (k :: l)) ∈ (∅ : gset bond)) as Hin.
    { rewrite <- Hc. apply elem_of_frozenset. split; [by left | done]. }
    by apply not_elem_of_empty in Hin.
  - by intros ->.
Qed.

Lemma connectivity_empty_witness :
  connectivity (receiver (set_connectivity (origin "H")
                  [origin "C"; origin "O"] [0; 0]))
  = Some ∅
  ↔ Forall (λ b, b = 0) [0; 0].
Proof. apply connectivity_empty. reflexivity. Defined.
